(** * Crossword generation as a constraint satisfaction problem

    A shallow embedding of [generate.py] (class [CrosswordCreator]) and the
    verification of its consistency engine and of its backtracking search.

    Conventions of the embedding.
    - A Python [set] is a duplicate-free list, written in the order in which
      the set object iterates.  CPython fixes that order when a set object is
      built; the embedding takes it as the parameters [word_set] and
      [var_set], about which only "same elements" is assumed.
    - A Python [dict] is an association list in insertion order; assigning to
      an existing key keeps its position, assigning to a new key appends.
    - Exceptions are results: [Raise e].  A mutation made before an exception
      stays in the store, as in Python.
    - [while] loops and the recursion of [backtrack] run on fuel, which the
      callers compute from the store; [Raise OutOfFuel] is shown unreachable. *)

From Stdlib Require Import List String Ascii Arith Bool Lia Permutation.
From Stdlib Require Import Sorting.Sorted.
Import ListNotations.

Local Open Scope string_scope.
Local Open Scope list_scope.
Local Open Scope nat_scope.

(** ** Data *)

Abbreviation word := string.

Inductive Direction := ACROSS | DOWN.

(** [crossword.Variable]: identity is (i, j, direction, length). *)
Record variable := Var {
  var_i : nat;
  var_j : nat;
  var_direction : Direction;
  var_length : nat
}.

Definition Direction_eq_dec (a b : Direction) : {a = b} + {a <> b}.
Proof. decide equality. Defined.

Definition variable_eq_dec (x y : variable) : {x = y} + {x <> y}.
Proof. decide equality; [apply Nat.eq_dec | apply Direction_eq_dec | apply Nat.eq_dec | apply Nat.eq_dec]. Defined.

Definition var_eqb (x y : variable) : bool :=
  if variable_eq_dec x y then true else false.

(** Modelled from the spec: the class [Crossword] of crossword.py is not among
    the sources.  The spec (sections 2, 3 and 6) gives what the solver reads of
    it: the slots, the word universe, and an overlap lookup that answers
    either "no shared cell" or the pair of offsets that must match. *)
Record Crossword := {
  variables : list variable;
  words : list word;
  overlaps : variable -> variable -> option (nat * nat)
}.

Definition is_some {A} (o : option A) : bool :=
  match o with Some _ => true | None => false end.

(** Python exceptions the solver can meet, and the fuel artefact. *)
Inductive exn := KeyError | TypeError | IndexError | OutOfFuel.

Inductive res (A : Type) : Type :=
| Ok (a : A)
| Raise (e : exn).
Arguments Ok {A} a.
Arguments Raise {A} e.

Definition res_bind {A B} (r : res A) (k : A -> res B) : res B :=
  match r with
  | Ok a => k a
  | Raise e => Raise e
  end.

Declare Scope res_scope.
Delimit Scope res_scope with res.
Notation "x <-- r ;; k" := (res_bind r (fun x => k))
  (at level 61, r at next level, right associativity) : res_scope.

(** [self.domains]: slot -> set of candidate words. *)
Definition store := list (variable * list word).

(** An assignment: slot -> word. *)
Definition assignment := list (variable * word).

Section Dict.
Context {V : Type}.

(** [d[k]] *)
Fixpoint lookup (k : variable) (d : list (variable * V)) : option V :=
  match d with
  | [] => None
  | (k', v) :: d' => if variable_eq_dec k k' then Some v else lookup k d'
  end.

(** [d[k] = v] *)
Fixpoint update (d : list (variable * V)) (k : variable) (v : V)
  : list (variable * V) :=
  match d with
  | [] => [(k, v)]
  | (k', v') :: d' =>
      if variable_eq_dec k k' then (k, v) :: d' else (k', v') :: update d' k v
  end.

(** [k in d] *)
Definition mem (k : variable) (d : list (variable * V)) : bool :=
  is_some (lookup k d).

Definition keys (d : list (variable * V)) : list variable := map fst d.
End Dict.

(** [self.domains[x]], with its [KeyError]. *)
Definition domain_of (D : store) (x : variable) : res (list word) :=
  match lookup x D with
  | Some d => Ok d
  | None => Raise KeyError
  end.

(** [s[k]] on a string, with its [IndexError]. *)
Definition char_at (s : word) (k : nat) : res ascii :=
  match String.get k s with
  | Some c => Ok c
  | None => Raise IndexError
  end.

(** [overlaps[x, y][0]], [overlaps[x, y][1]]: subscripting [None] raises. *)
Definition overlap_of (cw : Crossword) (x y : variable) : res (nat * nat) :=
  match overlaps cw x y with
  | Some p => Ok p
  | None => Raise TypeError
  end.

(** The state monad of the methods that write [self.domains]. *)
Definition M (A : Type) : Type := store -> res A * store.

Definition ret {A} (a : A) : M A := fun D => (Ok a, D).

Definition bind {A B} (m : M A) (k : A -> M B) : M B :=
  fun D =>
    match m D with
    | (Ok a, D') => k a D'
    | (Raise e, D') => (Raise e, D')
    end.

Definition lift {A} (f : store -> res A) : M A := fun D => (f D, D).

Definition put_domain (x : variable) (s : list word) : M unit :=
  fun D => (Ok tt, update D x s).

Declare Scope creator_scope.
Delimit Scope creator_scope with creator.
Notation "x <- m ;; k" := (bind m (fun x => k))
  (at level 61, m at next level, right associativity) : creator_scope.

(** Python's [==] on sets: same size, and every element of one in the other. *)
Definition set_eqb (s1 s2 : list word) : bool :=
  (List.length s1 =? List.length s2)
  && forallb (fun w => existsb (String.eqb w) s2) s1.

(** A loop that keeps the elements passing a test that may raise. *)
Fixpoint filter_res {A} (f : A -> res bool) (l : list A) : res (list A) :=
  match l with
  | [] => Ok []
  | a :: l' =>
      (b <-- f a ;;
       r <-- filter_res f l' ;;
       Ok (if b then a :: r else r))%res
  end.

Section Creator.

(** Iteration order of a freshly built set of words, given the order in
    which its elements were added; likewise for sets of slots. *)
Variable word_set : list word -> list word.
Variable var_set : list variable -> list variable.
Hypothesis word_set_perm : forall l, Permutation (word_set l) l.
Hypothesis var_set_perm : forall l, Permutation (var_set l) l.

Variable cw : Crossword.

(** Modelled from the spec: [Crossword.neighbors] is not among the sources;
    the spec (4.2) has a neighbour of v be a slot that "overlaps with v". *)
Definition neighbors (var : variable) : list variable :=
  var_set (filter (fun v => negb (var_eqb v var) && is_some (overlaps cw v var))
                  (variables cw)).

(** [__init__]: every slot starts with a copy of the whole word set. *)
Definition init : store :=
  map (fun var => (var, word_set (words cw))) (variables cw).

(** [enforce_node_consistency] *)
Definition enforce_node_consistency : M unit :=
  fun D =>
    (Ok tt,
     map (fun '(var, dom) =>
            (var, word_set (filter (fun w => String.length w =? var_length var) dom)))
         D).

(** [any(xWord[xi] == yWord[yi] for yWord in ys)]: stops at the first
    match; an index out of range raises where it is evaluated. *)
Fixpoint any_agree (xWord : word) (xi : nat) (ys : list word) (yi : nat)
  : res bool :=
  match ys with
  | [] => Ok false
  | yWord :: ys' =>
      (a <-- char_at xWord xi ;;
       b <-- char_at yWord yi ;;
       if Ascii.eqb a b then Ok true else any_agree xWord xi ys' yi)%res
  end.

(** The test of [revise] on one word of x; [self.domains[y]] is read anew for
    each word. *)
Definition has_partner (D : store) (y : variable) (xi yi : nat) (xWord : word)
  : res bool :=
  (domy <-- domain_of D y ;; any_agree xWord xi domy yi)%res.

(** The words [revise] keeps. *)
Definition kept_by (D : store) (y : variable) (xi yi : nat) (w : word) : bool :=
  match has_partner D y xi yi w with
  | Ok true => true
  | _ => false
  end.

(** [revise] *)
Definition revise (x y : variable) : M bool :=
  (p <- lift (fun _ => overlap_of cw x y) ;;
   let '(xIntersectionIndex, yIntersectionIndex) := p in
   domx <- lift (fun D => domain_of D x) ;;
   kept <- lift (fun D =>
             filter_res (has_partner D y xIntersectionIndex yIntersectionIndex) domx) ;;
   let newXDomain := word_set kept in
   let revisionMade := negb (set_eqb newXDomain domx) in
   if revisionMade
   then (_ <- put_domain x (word_set newXDomain) ;; ret true)
   else ret false)%creator.

Definition arc := (variable * variable)%type.

(** The arcs [ac3] starts from when it is given none. *)
Definition all_arcs (D : store) : list arc :=
  flat_map (fun var => map (fun neighbour => (var, neighbour)) (neighbors var))
           (keys D).

(** The [while] loop of [ac3]. *)
Fixpoint ac3_loop (fuel : nat) (arcs : list arc) : M bool :=
  match fuel with
  | 0 => fun D => (Raise OutOfFuel, D)
  | S fuel' =>
      match arcs with
      | [] => ret true
      | nextArc :: arcs' =>
          (revised <- revise (fst nextArc) (snd nextArc) ;;
           if revised : bool
           then
             (dom <- lift (fun D => domain_of D (fst nextArc)) ;;
              if List.length dom =? 0
              then ret false
              else
                ac3_loop fuel'
                  (arcs' ++
                   map (fun neighbour => (neighbour, fst nextArc))
                       (filter (fun item => negb (var_eqb item (snd nextArc)))
                               (neighbors (fst nextArc)))))
           else ac3_loop fuel' arcs')%creator
      end
  end.

Definition total_size (D : store) : nat :=
  list_sum (map (fun p => List.length (snd p)) D).

(** Iterations the loop can need: a revision that changes a domain removes
    a word and adds at most one arc per slot. *)
Definition ac3_fuel (arcs : list arc) (D : store) : nat :=
  S (total_size D * List.length (variables cw) + List.length arcs).

(** [ac3] *)
Definition ac3 (arcs : option (list arc)) : M bool :=
  fun D =>
    let arcs :=
      match arcs with
      | None => all_arcs D
      | Some l => l
      end in
    ac3_loop (ac3_fuel arcs D) arcs D.


(** [assignment_complete].  Words are strings by their type, so the test
    [type(assignment[variable]) != str] never fires. *)
Definition assignment_complete (D : store) (a : assignment) : bool :=
  forallb (fun v => mem v a) (keys D).

(** First loop of [consistent]: some later entry carries the same word. *)
Fixpoint duplicate_word (a : assignment) : bool :=
  match a with
  | [] => false
  | (_, w) :: a' => existsb (fun p => String.eqb w (snd p)) a' || duplicate_word a'
  end.

(** The arcs between assigned slots that [consistent] collects. *)
Definition assigned_arcs (a : assignment) : list arc :=
  flat_map (fun var =>
              map (fun neighbour => (var, neighbour))
                  (filter (fun item => mem item a) (neighbors var)))
           (keys a).

(** [assignment[x]] *)
Definition value_of (a : assignment) (x : variable) : res word :=
  match lookup x a with
  | Some w => Ok w
  | None => Raise KeyError
  end.

(** Last loop of [consistent]. *)
Fixpoint check_arcs (a : assignment) (arcs : list arc) : res bool :=
  match arcs with
  | [] => Ok true
  | (x, y) :: arcs' =>
      (p <-- overlap_of cw x y ;;
       wx <-- value_of a x ;;
       cx <-- char_at wx (fst p) ;;
       wy <-- value_of a y ;;
       cy <-- char_at wy (snd p) ;;
       if negb (Ascii.eqb cx cy) then Ok false else check_arcs a arcs')%res
  end.

(** [consistent] *)
Definition consistent (a : assignment) : res bool :=
  if duplicate_word a then Ok false
  else if existsb (fun p => negb (var_length (fst p) =? String.length (snd p))) a
  then Ok false
  else check_arcs a (assigned_arcs a).

(** The two inner loops of [order_domain_values]: the words of the
    unassigned neighbours that [domain] rules out. *)
Fixpoint ruled_out_in (var : variable) (domain : word) (neighbour : variable)
         (ws : list word) : res nat :=
  match ws with
  | [] => Ok 0
  | neighbourDomain :: ws' =>
      (p <-- overlap_of cw var neighbour ;;
       a <-- char_at domain (fst p) ;;
       b <-- char_at neighbourDomain (snd p) ;;
       n <-- ruled_out_in var domain neighbour ws' ;;
       Ok (if negb (Ascii.eqb a b) then S n else n))%res
  end.

Fixpoint choices_ruled_out (D : store) (var : variable) (domain : word)
         (ns : list variable) : res nat :=
  match ns with
  | [] => Ok 0
  | neighbour :: ns' =>
      (ws <-- domain_of D neighbour ;;
       n <-- ruled_out_in var domain neighbour ws ;;
       m <-- choices_ruled_out D var domain ns' ;;
       Ok (n + m))%res
  end.

Fixpoint map_res {A B} (f : A -> res B) (l : list A) : res (list B) :=
  match l with
  | [] => Ok []
  | a :: l' => (b <-- f a ;; r <-- map_res f l' ;; Ok (b :: r))%res
  end.

(** [sorted(d, key=...)]: Python's sort is stable and ascending. *)
Fixpoint insert_by {A} (key : A -> nat) (x : A) (l : list A) : list A :=
  match l with
  | [] => [x]
  | y :: l' => if key x <=? key y then x :: y :: l' else y :: insert_by key x l'
  end.

Definition sorted_by {A} (key : A -> nat) (l : list A) : list A :=
  fold_right (insert_by key) [] l.

(** [order_domain_values] *)
Definition order_domain_values (D : store) (var : variable) (a : assignment)
  : res (list word) :=
  (dom <-- domain_of D var ;;
   domainOnChoices <--
     map_res (fun domain =>
                (choicesRuledOut <--
                   choices_ruled_out D var domain
                     (filter (fun item => negb (mem item a)) (neighbors var)) ;;
                 Ok (domain, choicesRuledOut))%res)
             dom ;;
   Ok (map fst (sorted_by snd domainOnChoices)))%res.

(** First loop of [select_unassigned_variable]; [None] is [float('inf')]. *)
Definition fewest_step (acc : option nat * list variable)
           (entry : variable * list word) : option nat * list variable :=
  let n := List.length (snd entry) in
  match fst acc with
  | None => (Some n, [fst entry])
  | Some lowestDomainVal =>
      if n <? lowestDomainVal then (Some n, [fst entry])
      else if n =? lowestDomainVal then (Some lowestDomainVal, snd acc ++ [fst entry])
      else acc
  end.

(** Second loop of [select_unassigned_variable]. *)
Definition degree_step (acc : nat * list variable) (v : variable)
  : nat * list variable :=
  let d := List.length (neighbors v) in
  if fst acc <? d then (d, [v])
  else if d =? fst acc then (fst acc, snd acc ++ [v])
  else acc.

(** [[key for key in d][0]] *)
Definition first_key (l : list variable) : res variable :=
  match l with
  | k :: _ => Ok k
  | [] => Raise IndexError
  end.

(** [select_unassigned_variable] *)
Definition select_unassigned_variable (D : store) (a : assignment)
  : res variable :=
  let fewestRemainingDomains :=
    snd (fold_left fewest_step
                   (filter (fun entry => negb (mem (fst entry) a)) D)
                   (None, [])) in
  if List.length fewestRemainingDomains =? 1
  then first_key fewestRemainingDomains
  else first_key (snd (fold_left degree_step fewestRemainingDomains (0, []))).

(** What the search did, in order: a record kept beside the program. *)
Inductive event :=
| Call (a : assignment)
| Try (var : variable) (value : word).

Definition journal := list event.

Definition search := (journal * res (option assignment))%type.

(** The [for value in self.domains[var]] loop of [backtrack]; [rec] is the
    recursive call.  The callee writes into the dictionary it is given, and
    the caller never reads that dictionary again: it returns the result or
    rebinds [assignment] to a copy taken before the call. *)
Fixpoint backtrack_loop (rec : assignment -> search) (var : variable)
         (values : list word) (a : assignment) : search :=
  match values with
  | [] => ([], Ok None)
  | value :: values' =>
      let assignmentCopy := update a var value in
      match consistent assignmentCopy with
      | Raise e => ([Try var value], Raise e)
      | Ok false =>
          let '(j, r) := backtrack_loop rec var values' a in
          (Try var value :: j, r)
      | Ok true =>
          let '(j1, result) := rec (update a var value) in
          match result with
          | Ok None =>
              let '(j2, r) := backtrack_loop rec var values' assignmentCopy in
              (Try var value :: j1 ++ j2, r)
          | _ => (Try var value :: j1, result)
          end
      end
  end.

(** [backtrack] *)
Fixpoint backtrack (fuel : nat) (D : store) (a : assignment) : search :=
  match fuel with
  | 0 => ([], Raise OutOfFuel)
  | S fuel' =>
      if assignment_complete D a then ([Call a], Ok (Some a))
      else
        match select_unassigned_variable D a with
        | Raise e => ([Call a], Raise e)
        | Ok var =>
            match domain_of D var with
            | Raise e => ([Call a], Raise e)
            | Ok values =>
                let '(j, r) := backtrack_loop (backtrack fuel' D) var values a in
                (Call a :: j, r)
            end
        end
  end.

(** [solve]: the value of [self.ac3()] is dropped. *)
Definition solve : store -> search * store :=
  fun D =>
    match (_ <- enforce_node_consistency ;; ac3 None)%creator D with
    | (Raise e, D') => (([], Raise e), D')
    | (Ok _, D') => (backtrack (S (List.length D')) D' [], D')
    end.

(** ** What the claims speak of *)

(** The contract of the structural model (spec, section 3): the slots are
    distinct, the overlap lookup is symmetric with the offsets swapped, and an
    offset lies inside its slot. *)
Fixpoint no_repeat (l : list variable) : bool :=
  match l with
  | [] => true
  | x :: l' => negb (existsb (var_eqb x) l') && no_repeat l'
  end.

Definition symmetric_pair (x y : variable) : bool :=
  match overlaps cw x y, overlaps cw y x with
  | None, None => true
  | Some (a, b), Some (b', a') => (a =? a') && (b =? b')
  | _, _ => false
  end.

Definition in_range_pair (x y : variable) : bool :=
  match overlaps cw x y with
  | None => true
  | Some (a, b) => (a <? var_length x) && (b <? var_length y)
  end.

Definition on_distinct_slots (f : variable -> variable -> bool) : bool :=
  forallb (fun x => forallb (fun y => var_eqb x y || f x y) (variables cw))
          (variables cw).

Definition symmetric_overlaps : bool := on_distinct_slots symmetric_pair.

Definition offsets_in_range : bool := on_distinct_slots in_range_pair.

(** Two words carry the same letter at the given offsets. *)
Definition agree_at (wx : word) (i : nat) (wy : word) (j : nat) : Prop :=
  exists c, String.get i wx = Some c /\ String.get j wy = Some c.

(** The three conditions of a consistent assignment (spec, 4.3). *)
Definition distinct_words (a : assignment) : Prop :=
  forall x y w, x <> y -> lookup x a = Some w -> lookup y a <> Some w.

Definition lengths_fit (a : assignment) : Prop :=
  forall x w, lookup x a = Some w -> String.length w = var_length x.

Definition overlaps_agree (a : assignment) : Prop :=
  forall x y wx wy i j,
    x <> y ->
    lookup x a = Some wx -> lookup y a = Some wy ->
    overlaps cw x y = Some (i, j) ->
    agree_at wx i wy j.

Definition consistent_spec (a : assignment) : Prop :=
  distinct_words a /\ lengths_fit a /\ overlaps_agree a.

(** Every slot of the store has a word. *)
Definition complete (D : store) (a : assignment) : Prop :=
  forall v, In v (keys D) -> exists w, lookup v a = Some w.

(** A word of x has a partner in the domain of y. *)
Definition supported (D : store) (x y : variable) (w : word) : Prop :=
  exists i j domy w',
    overlaps cw x y = Some (i, j) /\ lookup y D = Some domy /\
    In w' domy /\ agree_at w i w' j.

Definition arc_supported (D : store) (x y : variable) : Prop :=
  forall domx w, lookup x D = Some domx -> In w domx -> supported D x y w.

Definition arc_consistent (D : store) : Prop :=
  forall x y, In x (variables cw) -> In y (neighbors x) -> arc_supported D x y.

(** The invariant of the work list: an arc between neighbours is waiting in
    the list or is supported. *)
Definition neighbour_arcs (arcs : list arc) : Prop :=
  forall x y, In (x, y) arcs -> In x (variables cw) /\ In y (neighbors x).

Definition pending_or_supported (arcs : list arc) (D : store) : Prop :=
  forall x y, In x (variables cw) -> In y (neighbors x) ->
              In (x, y) arcs \/ arc_supported D x y.

(** Every word has the length of its slot. *)
Definition node_consistent (D : store) : Prop :=
  forall x d w, lookup x D = Some d -> In w d -> String.length w = var_length x.

(** Same slots, and no domain holds a word it did not hold before. *)
Definition shrinks (D D' : store) : Prop :=
  keys D' = keys D /\
  forall x d', lookup x D' = Some d' ->
               exists d, lookup x D = Some d /\ incl d' d.

(** The operations of the consistency engine, to speak of their sequences. *)
Inductive operation :=
| Node
| Revise (x y : variable)
| Ac3 (arcs : option (list arc)).

Definition run (op : operation) (D : store) : store :=
  match op with
  | Node => snd (enforce_node_consistency D)
  | Revise x y => snd (revise x y D)
  | Ac3 arcs => snd (ac3 arcs D)
  end.

Definition run_all (ops : list operation) (D : store) : store :=
  fold_left (fun D op => run op D) ops D.

(** Two stores with the same slots in the same order and, for each slot, the
    same set of words. *)
Definition same_domains (D1 D2 : store) : Prop :=
  Forall2 (fun p q => fst p = fst q /\ Permutation (snd p) (snd q)) D1 D2.




(** The slots of the store still without a word. *)
Definition remaining (D : store) (a : assignment) : nat :=
  List.length (filter (fun v => negb (mem v a)) (keys D)).

(** What [solve] may hand out: no solution, or a complete and consistent
    assignment. *)
Definition solved (D : store) (r : option assignment) : Prop :=
  match r with
  | None => True
  | Some a => complete D a /\ consistent_spec a
  end.

(** The words the search tried for a slot, in the order of the journal. *)
Definition attempts (var : variable) (j : journal) : list word :=
  flat_map (fun e =>
              match e with
              | Try v w => if variable_eq_dec v var then [w] else []
              | Call _ => []
              end) j.

(** The first word tried at each node of the search: a [Call] followed at
    once by a [Try]. *)
Fixpoint first_choices (j : journal) : list (assignment * variable * word) :=
  match j with
  | [] => []
  | e :: j' =>
      match e, j' with
      | Call a, Try v w :: _ => [(a, v, w)]
      | _, _ => []
      end ++ first_choices j'
  end.

(** At some node the first word tried is not the first word of
    [order_domain_values]. *)
Definition breaks_value_order (D : store) (j : journal) : bool :=
  existsb (fun c =>
             match c with
             | (a, v, w) =>
                 match order_domain_values D v a with
                 | Ok (w' :: _) => negb (String.eqb w w')
                 | _ => false
                 end
             end)
          (first_choices j).

(** The search was entered. *)
Definition searched (j : journal) : Prop := exists a, In (Call a) j.


(** ** Sample puzzles *)

(** A set that iterates in the order in which it was filled. *)
Definition in_order {A} (l : list A) : list A := l.

Definition across3 : variable := Var 0 0 ACROSS 3.
Definition down4 : variable := Var 0 1 DOWN 4.
Definition across5 : variable := Var 2 0 ACROSS 5.

(** [across3] and [down4] share the cell (0, 1). *)
Definition crossing (x y : variable) : option (nat * nat) :=
  if variable_eq_dec x across3
  then if variable_eq_dec y down4 then Some (1, 0) else None
  else if variable_eq_dec x down4
       then if variable_eq_dec y across3 then Some (0, 1) else None
       else None.

Definition cross_puzzle : Crossword :=
  {| variables := [across3; down4];
     words := ["dog"; "cat"; "area"; "also"; "oboe"];
     overlaps := crossing |}.

(** The same grid with no word of four letters. *)
Definition short_puzzle : Crossword :=
  {| variables := [across3; down4];
     words := ["dog"; "cat"];
     overlaps := crossing |}.

(** Two across slots with no shared cell (spec, section 8). *)
Definition apart_puzzle : Crossword :=
  {| variables := [across3; across5];
     words := ["cat"; "dog"; "house"; "mouse"];
     overlaps := fun _ _ => None |}.

(** Three slots: [top3] and [mid3] both cross [left4], at its first and at
    its third letter. *)
Definition top3 : variable := Var 0 0 ACROSS 3.
Definition mid3 : variable := Var 2 0 ACROSS 3.
Definition left4 : variable := Var 0 0 DOWN 4.

Definition ladder (x y : variable) : option (nat * nat) :=
  if variable_eq_dec x left4
  then if variable_eq_dec y top3 then Some (0, 0)
       else if variable_eq_dec y mid3 then Some (2, 0) else None
  else if variable_eq_dec y left4
       then if variable_eq_dec x top3 then Some (0, 0)
            else if variable_eq_dec x mid3 then Some (0, 2) else None
       else None.

Definition ladder_puzzle : Crossword :=
  {| variables := [top3; mid3; left4];
     words := ["cat"; "dog"; "code"; "cede"; "dice"];
     overlaps := ladder |}.

(** A store over given slots: the same set object contents, in the same
    iteration order, for the slots of three letters, which node consistency
    fills by the same insertions. *)
Definition store_of (ks : list variable) (short long : list word) : store :=
  map (fun v => (v, if var_length v =? 3 then short else long)) ks.

(** All the orders in which a set or a dictionary can iterate. *)
Fixpoint interleave {A} (x : A) (l : list A) : list (list A) :=
  match l with
  | [] => [[x]]
  | y :: l' => (x :: l) :: map (cons y) (interleave x l')
  end.

Fixpoint orders {A} (l : list A) : list (list A) :=
  match l with
  | [] => [[]]
  | x :: l' => flat_map (interleave x) (orders l')
  end.

(** ** Rendering *)

(** What [letter_grid] returns: rows of cells, a cell empty ([None]) or
    holding a letter. *)
Definition grid := list (list (option ascii)).

(** The nested comprehension of [letter_grid]: every row is a list of its
    own. *)
Definition blank_grid (height width : nat) : grid :=
  repeat (repeat None width) height.

(** The cell of the k-th letter of a slot: the [i] and [j] of [letter_grid]. *)
Definition cell_of (v : variable) (k : nat) : nat * nat :=
  (var_i v + match var_direction v with DOWN => k | ACROSS => 0 end,
   var_j v + match var_direction v with ACROSS => k | DOWN => 0 end).

(** [l[n] = x] where the index is known to exist. *)
Fixpoint list_set {A} (l : list A) (n : nat) (x : A) : list A :=
  match l, n with
  | [], _ => []
  | _ :: l', 0 => x :: l'
  | y :: l', S n' => y :: list_set l' n' x
  end.

(** [letters[i][j] = c]: either index out of range raises. *)
Definition set_cell (g : grid) (i j : nat) (c : ascii) : res grid :=
  match nth_error g i with
  | None => Raise IndexError
  | Some row =>
      if j <? List.length row
      then Ok (list_set g i (list_set row j (Some c)))
      else Raise IndexError
  end.

(** [for k in range(len(word))], from the k-th letter on. *)
Fixpoint write_word (g : grid) (v : variable) (k : nat) (w : word) : res grid :=
  match w with
  | EmptyString => Ok g
  | String c w' =>
      (g' <-- set_cell g (fst (cell_of v k)) (snd (cell_of v k)) c ;;
       write_word g' v (S k) w')%res
  end.

(** [for variable, word in assignment.items()] *)
Fixpoint fill_grid (g : grid) (a : assignment) : res grid :=
  match a with
  | [] => Ok g
  | (v, w) :: a' => (g' <-- write_word g v 0 w ;; fill_grid g' a')%res
  end.

(** [letter_grid]; [height] and [width] are [self.crossword.height] and
    [self.crossword.width]. *)
Definition letter_grid (height width : nat) (a : assignment) : res grid :=
  fill_grid (blank_grid height width) a.

(** What a cell of a grid shows; nothing outside the grid. *)
Definition cell (g : grid) (i j : nat) : option ascii :=
  match nth_error g i with
  | Some row =>
      match nth_error row j with
      | Some x => x
      | None => None
      end
  | None => None
  end.

(** A word of the assignment puts the letter [c] on the cell (i, j). *)
Definition covers (a : assignment) (i j : nat) (c : ascii) : Prop :=
  exists v w k, In (v, w) a /\ cell_of v k = (i, j) /\ String.get k w = Some c.

(** Every letter of the assignment has its cell inside the grid. *)
Definition fits_grid (height width : nat) (a : assignment) : Prop :=
  forall v w k, In (v, w) a -> k < String.length w ->
                fst (cell_of v k) < height /\ snd (cell_of v k) < width.

(** No cell is given two different letters. *)
Definition cells_agree (a : assignment) : Prop :=
  forall i j c c', covers a i j c -> covers a i j c' -> c = c'.

(** What [print] writes: a block, a character, or the end of a line. *)
Inductive glyph :=
| Block
| Shown (c : ascii)
| EndLine.

(** [structure[i][j]], [letters[i][j]] *)
Definition at2 {A} (m : list (list A)) (i j : nat) : res A :=
  match nth_error m i with
  | None => Raise IndexError
  | Some row =>
      match nth_error row j with
      | None => Raise IndexError
      | Some x => Ok x
      end
  end.

(** One cell of [print]: [letters[i][j] or " "] on an open cell, the block
    otherwise; [letters] is not read on a blocked cell. *)
Definition print_cell (structure : list (list bool)) (letters : grid)
           (i j : nat) : res glyph :=
  (open <-- at2 structure i j ;;
   if open : bool
   then (l <-- at2 letters i j ;;
         Ok (Shown match l with Some c => c | None => " "%char end))
   else Ok Block)%res.

(** The inner loop of [print] over the columns [js]; what was written before
    an exception stays written. *)
Fixpoint print_row (structure : list (list bool)) (letters : grid) (i : nat)
         (js : list nat) : list glyph * res unit :=
  match js with
  | [] => ([], Ok tt)
  | j :: js' =>
      match print_cell structure letters i j with
      | Raise e => ([], Raise e)
      | Ok gl =>
          let '(out, r) := print_row structure letters i js' in
          (gl :: out, r)
      end
  end.

(** The outer loop of [print] over the rows [rows]; each row ends with
    [print()]. *)
Fixpoint print_rows (structure : list (list bool)) (letters : grid)
         (width : nat) (rows : list nat) : list glyph * res unit :=
  match rows with
  | [] => ([], Ok tt)
  | i :: rows' =>
      let '(out, r) := print_row structure letters i (seq 0 width) in
      match r with
      | Raise e => (out, Raise e)
      | Ok _ =>
          let '(out', r') := print_rows structure letters width rows' in
          (out ++ EndLine :: out', r')
      end
  end.

(** [print]; [structure] is [self.crossword.structure]. *)
Definition print (height width : nat) (structure : list (list bool))
           (a : assignment) : list glyph * res unit :=
  match letter_grid height width a with
  | Raise e => ([], Raise e)
  | Ok letters => print_rows structure letters width (seq 0 height)
  end.

(** The letter a word of a slot puts on the cell (i, j), if any. *)
Definition letter_of (v : variable) (w : word) (i j : nat) : option ascii :=
  match var_direction v with
  | ACROSS =>
      if (i =? var_i v) && (var_j v <=? j) then String.get (j - var_j v) w else None
  | DOWN =>
      if (j =? var_j v) && (var_i v <=? i) then String.get (i - var_i v) w else None
  end.

(** The letter an assignment leaves on the cell (i, j): that of the last
    entry that puts one there. *)
Fixpoint shown_letter (a : assignment) (i j : nat) : option ascii :=
  match a with
  | [] => None
  | (v, w) :: a' =>
      match shown_letter a' i j with
      | Some c => Some c
      | None => letter_of v w i j
      end
  end.

(** The glyph of a cell: the block on a blocked cell, else the letter the
    assignment leaves there, else a space. *)
Definition glyph_at (structure : list (list bool)) (a : assignment)
           (i j : nat) : glyph :=
  match at2 structure i j with
  | Ok true => Shown match shown_letter a i j with Some c => c | None => " "%char end
  | _ => Block
  end.

(** A structure of the given height and width. *)
Definition shaped {A} (height width : nat) (m : list (list A)) : Prop :=
  List.length m = height /\ Forall (fun row => List.length row = width) m.

(** The overlap lookup follows the geometry of the slots (spec, section 3):
    when the k1-th cell of x is the k2-th cell of y, the overlap of x and y is
    (k1, k2). *)
Definition geometric_pair (x y : variable) : bool :=
  forallb
    (fun k1 =>
       forallb
         (fun k2 =>
            negb ((fst (cell_of x k1) =? fst (cell_of y k2))
                  && (snd (cell_of x k1) =? snd (cell_of y k2)))
            || match overlaps cw x y with
               | Some (a, b) => (a =? k1) && (b =? k2)
               | None => false
               end)
         (seq 0 (var_length y)))
    (seq 0 (var_length x)).

Definition geometric_overlaps : bool := on_distinct_slots geometric_pair.

(** ** Solutions *)

(** Every word of [s] is in the domain of its slot. *)
Definition within (D : store) (s : assignment) : Prop :=
  forall v w, lookup v s = Some w -> exists d, lookup v D = Some d /\ In w d.

(** [s] assigns what [a] assigns. *)
Definition extends (a s : assignment) : Prop :=
  forall v w, lookup v a = Some w -> lookup v s = Some w.

(** [within] and [fits_grid], as checks that run. *)
Definition within_b (D : store) (s : assignment) : bool :=
  forallb (fun p => match lookup (fst p) D with
                    | Some d => existsb (String.eqb (snd p)) d
                    | None => false
                    end) s.

Definition fits_grid_b (height width : nat) (a : assignment) : bool :=
  forallb (fun p =>
             forallb (fun k => (fst (cell_of (fst p) k) <? height)
                               && (snd (cell_of (fst p) k) <? width))
                     (seq 0 (String.length (snd p)))) a.

(** ** Dictionaries *)

Lemma lookup_update_same {V} (d : list (variable * V)) k v :
  lookup k (update d k v) = Some v.
Proof.
  induction d as [|[k' v'] d IH]; simpl.
  - destruct (variable_eq_dec k k); congruence.
  - destruct (variable_eq_dec k k') as [E|N]; simpl.
    + destruct (variable_eq_dec k k); congruence.
    + destruct (variable_eq_dec k k'); [contradiction | exact IH].
Qed.

Lemma lookup_update_other {V} (d : list (variable * V)) k k' v :
  k <> k' -> lookup k' (update d k v) = lookup k' d.
Proof.
  intros N. induction d as [|[k0 v0] d IH]; simpl.
  - destruct (variable_eq_dec k' k); congruence.
  - destruct (variable_eq_dec k k0) as [E|N0]; simpl.
    + subst k0. destruct (variable_eq_dec k' k); congruence.
    + destruct (variable_eq_dec k' k0); [reflexivity | exact IH].
Qed.

Lemma lookup_None_keys {V} (d : list (variable * V)) k :
  lookup k d = None <-> ~ In k (keys d).
Proof.
  induction d as [|[k' v'] d IH]; simpl.
  - tauto.
  - destruct (variable_eq_dec k k') as [E|N].
    + split; [discriminate | intros H; exfalso; apply H; left; congruence].
    + rewrite IH. split; intros H; [intros [E|I]; [congruence | tauto] | tauto].
Qed.

Lemma lookup_Some_keys {V} (d : list (variable * V)) k :
  (exists v, lookup k d = Some v) <-> In k (keys d).
Proof.
  destruct (lookup k d) as [v|] eqn:E.
  - split; [intros _ | intros _; eauto].
    destruct (in_dec variable_eq_dec k (keys d)) as [I|N]; [exact I|].
    apply lookup_None_keys in N. congruence.
  - apply lookup_None_keys in E. split; [intros [v Hv]; discriminate | tauto].
Qed.

Lemma mem_true_keys {V} (d : list (variable * V)) k :
  mem k d = true <-> In k (keys d).
Proof.
  unfold mem. rewrite <- lookup_Some_keys.
  destruct (lookup k d); simpl; split; eauto; try discriminate.
  intros [v Hv]; discriminate.
Qed.

Lemma mem_false_keys {V} (d : list (variable * V)) k :
  mem k d = false <-> ~ In k (keys d).
Proof.
  rewrite <- mem_true_keys. destruct (mem k d); split; congruence.
Qed.

Lemma lookup_In {V} (d : list (variable * V)) k v :
  lookup k d = Some v -> In (k, v) d.
Proof.
  induction d as [|[k' v'] d IH]; simpl; [discriminate|].
  destruct (variable_eq_dec k k'); intros H.
  - left. congruence.
  - right. auto.
Qed.

Lemma In_lookup {V} (d : list (variable * V)) k v :
  NoDup (keys d) -> In (k, v) d -> lookup k d = Some v.
Proof.
  induction d as [|[k' v'] d IH]; simpl; [tauto|].
  intros ND [E|I].
  - inversion E; subst. destruct (variable_eq_dec k k); congruence.
  - inversion ND; subst. destruct (variable_eq_dec k k') as [E|N]; [|auto].
    subst k'. exfalso. apply H1. change k with (fst (k, v)). apply in_map, I.
Qed.

Lemma keys_update_present {V} (d : list (variable * V)) k v :
  In k (keys d) -> keys (update d k v) = keys d.
Proof.
  induction d as [|[k' v'] d IH]; simpl; [tauto|].
  intros H. destruct (variable_eq_dec k k') as [E|N]; simpl.
  - congruence.
  - f_equal. apply IH. destruct H; congruence.
Qed.

Lemma keys_update_absent {V} (d : list (variable * V)) k v :
  ~ In k (keys d) -> keys (update d k v) = keys d ++ [k].
Proof.
  induction d as [|[k' v'] d IH]; simpl; [reflexivity|].
  intros H. destruct (variable_eq_dec k k') as [E|N]; simpl.
  - exfalso. apply H. left. congruence.
  - f_equal. apply IH. tauto.
Qed.

Lemma var_eqb_true x y : var_eqb x y = true <-> x = y.
Proof. unfold var_eqb. destruct (variable_eq_dec x y); split; congruence. Qed.

Lemma var_eqb_false x y : var_eqb x y = false <-> x <> y.
Proof. unfold var_eqb. destruct (variable_eq_dec x y); split; congruence. Qed.

(** ** Sets *)

Lemma In_word_set l w : In w (word_set l) <-> In w l.
Proof.
  split; apply Permutation_in; [apply word_set_perm | apply Permutation_sym, word_set_perm].
Qed.

Lemma length_word_set l : List.length (word_set l) = List.length l.
Proof. apply Permutation_length, word_set_perm. Qed.

Lemma In_var_set l v : In v (var_set l) <-> In v l.
Proof.
  split; apply Permutation_in; [apply var_set_perm | apply Permutation_sym, var_set_perm].
Qed.

Lemma In_neighbors x y :
  In y (neighbors x) <->
  In y (variables cw) /\ y <> x /\ exists p, overlaps cw y x = Some p.
Proof.
  unfold neighbors. rewrite In_var_set, filter_In, andb_true_iff, negb_true_iff, var_eqb_false.
  split; intros (H1 & H2 & H3); (split; [exact H1|]); (split; [exact H2|]).
  - destruct (overlaps cw y x); [eauto | discriminate].
  - destruct H3 as [p ->]. reflexivity.
Qed.

Lemma length_neighbors x : List.length (neighbors x) <= List.length (variables cw).
Proof.
  unfold neighbors. rewrite (Permutation_length (var_set_perm _)). apply filter_length_le.
Qed.

Lemma filter_perm {A} (f : A -> bool) l l' :
  Permutation l l' -> Permutation (filter f l) (filter f l').
Proof.
  induction 1; simpl.
  - constructor.
  - destruct (f x); [constructor|]; assumption.
  - destruct (f x), (f y); repeat constructor; apply Permutation_refl.
  - eapply Permutation_trans; eassumption.
Qed.

Lemma filter_idem {A} (f : A -> bool) l : filter f (filter f l) = filter f l.
Proof.
  induction l as [|a l IH]; simpl; [reflexivity|].
  destruct (f a) eqn:E; simpl; [rewrite E, IH; reflexivity | exact IH].
Qed.

Lemma filter_all {A} (f : A -> bool) l :
  List.length (filter f l) = List.length l -> forall a, In a l -> f a = true.
Proof.
  induction l as [|b l IH]; simpl; [tauto|].
  destruct (f b) eqn:E; simpl; intros H a [<-|I]; auto.
  - pose proof (filter_length_le f l). lia.
  - pose proof (filter_length_le f l). lia.
Qed.

Lemma filter_res_Ok {A} (f : A -> res bool) l kept :
  filter_res f l = Ok kept ->
  kept = filter (fun a => match f a with Ok true => true | _ => false end) l /\
  forall a, In a l -> exists b, f a = Ok b.
Proof.
  revert kept. induction l as [|a l IH]; simpl; intros kept H.
  - inversion H. split; [reflexivity | tauto].
  - destruct (f a) as [b|e] eqn:Fa; simpl in H; [|discriminate].
    destruct (filter_res f l) as [r|e] eqn:Fl; simpl in H; [|discriminate].
    destruct (IH r eq_refl) as [-> Hall]. inversion H; subst kept.
    split.
    + destruct b; reflexivity.
    + intros a' [<-|I]; eauto.
Qed.

Lemma set_eqb_filtered (f : word -> bool) dom :
  set_eqb (word_set (filter f dom)) dom =
  (List.length (filter f dom) =? List.length dom).
Proof.
  unfold set_eqb. rewrite length_word_set.
  replace (forallb _ _) with true; [apply andb_true_r|].
  symmetry. apply forallb_forall. intros w Hw.
  apply In_word_set, filter_In in Hw. apply existsb_exists.
  exists w. split; [tauto | apply String.eqb_refl].
Qed.

(** ** The consistency engine, step by step *)

Lemma revise_inv x y D r D' :
  revise x y D = (r, D') ->
  match r with
  | Raise _ => D' = D
  | Ok b =>
      exists xi yi domx,
        overlaps cw x y = Some (xi, yi) /\ lookup x D = Some domx /\
        (forall w, In w domx -> exists t, has_partner D y xi yi w = Ok t) /\
        let kept := filter (kept_by D y xi yi) domx in
        b = negb (List.length kept =? List.length domx) /\
        D' = if b then update D x (word_set (word_set kept)) else D
  end.
Proof.
  unfold revise, bind, lift, overlap_of, domain_of, put_domain, ret.
  destruct (overlaps cw x y) as [[xi yi]|] eqn:Ho; [|intros H; inversion H; reflexivity].
  destruct (lookup x D) as [domx|] eqn:Hx; [|intros H; inversion H; reflexivity].
  destruct (filter_res (has_partner D y xi yi) domx) as [kept|e] eqn:Hf;
    [|intros H; inversion H; reflexivity].
  apply filter_res_Ok in Hf. destruct Hf as [-> Hall].
  fold (kept_by D y xi yi). rewrite set_eqb_filtered.
  destruct (List.length (filter (kept_by D y xi yi) domx) =? List.length domx) eqn:El;
    simpl; intros H; inversion H; subst; exists xi, yi, domx; rewrite El; simpl; auto.
Qed.

Lemma ac3_loop_step fuel nextArc arcs D :
  ac3_loop (S fuel) (nextArc :: arcs) D =
  match revise (fst nextArc) (snd nextArc) D with
  | (Raise e, D') => (Raise e, D')
  | (Ok false, D') => ac3_loop fuel arcs D'
  | (Ok true, D') =>
      match lookup (fst nextArc) D' with
      | None => (Raise KeyError, D')
      | Some dom =>
          if List.length dom =? 0 then (Ok false, D')
          else ac3_loop fuel
                 (arcs ++ map (fun neighbour => (neighbour, fst nextArc))
                              (filter (fun item => negb (var_eqb item (snd nextArc)))
                                      (neighbors (fst nextArc)))) D'
      end
  end.
Proof.
  simpl. unfold bind at 1.
  destruct (revise (fst nextArc) (snd nextArc) D) as [[[|]|e] D']; try reflexivity.
  unfold bind, lift, domain_of, ret.
  destruct (lookup (fst nextArc) D') as [dom|]; [|reflexivity].
  destruct (List.length dom =? 0); reflexivity.
Qed.

(** ** Domains only shrink *)

Lemma shrinks_refl D : shrinks D D.
Proof. split; [reflexivity|]. intros x d H. exists d. split; [exact H | apply incl_refl]. Qed.

Lemma shrinks_trans D1 D2 D3 : shrinks D1 D2 -> shrinks D2 D3 -> shrinks D1 D3.
Proof.
  intros [K1 H1] [K2 H2]. split; [congruence|].
  intros x d3 Hx. destruct (H2 x d3 Hx) as (d2 & Hd2 & I2).
  destruct (H1 x d2 Hd2) as (d1 & Hd1 & I1).
  exists d1. split; [exact Hd1 | eapply incl_tran; eassumption].
Qed.

Lemma shrinks_update D x domx s :
  lookup x D = Some domx -> incl s domx -> shrinks D (update D x s).
Proof.
  intros Hx Hs. split.
  - apply keys_update_present. apply lookup_Some_keys. eauto.
  - intros z d' Hz. destruct (variable_eq_dec x z) as [<-|N].
    + rewrite lookup_update_same in Hz. inversion Hz; subst. eauto.
    + rewrite lookup_update_other in Hz by exact N. exists d'. split; [exact Hz | apply incl_refl].
Qed.

Lemma lookup_enforce D x :
  lookup x (snd (enforce_node_consistency D)) =
  option_map (fun dom => word_set (filter (fun w => String.length w =? var_length x) dom))
             (lookup x D).
Proof.
  simpl. induction D as [|[k d] D IH]; simpl; [reflexivity|].
  destruct (variable_eq_dec x k) as [->|N]; [reflexivity | exact IH].
Qed.

Lemma keys_enforce D : keys (snd (enforce_node_consistency D)) = keys D.
Proof.
  simpl. unfold keys. rewrite map_map. apply map_ext. intros [k d]. reflexivity.
Qed.

Lemma enforce_shrinks D : shrinks D (snd (enforce_node_consistency D)).
Proof.
  split; [apply keys_enforce|].
  intros x d'. rewrite lookup_enforce. destruct (lookup x D) as [d|]; simpl; [|discriminate].
  intros H. inversion H; subst. exists d. split; [reflexivity|].
  intros w Hw. apply In_word_set, filter_In in Hw. tauto.
Qed.

Lemma revise_shrinks x y D : shrinks D (snd (revise x y D)).
Proof.
  destruct (revise x y D) as [r D'] eqn:E. apply revise_inv in E. simpl.
  destruct r as [b|e]; [|subst; apply shrinks_refl].
  destruct E as (xi & yi & domx & _ & Hx & _ & _ & ->).
  destruct b; [|apply shrinks_refl].
  eapply shrinks_update; [exact Hx|].
  intros w Hw. apply In_word_set, In_word_set, filter_In in Hw. tauto.
Qed.

Lemma ac3_loop_shrinks fuel : forall arcs D, shrinks D (snd (ac3_loop fuel arcs D)).
Proof.
  induction fuel as [|fuel IH]; intros arcs D; [apply shrinks_refl|].
  destruct arcs as [|nextArc arcs]; [apply shrinks_refl|].
  rewrite ac3_loop_step.
  pose proof (revise_shrinks (fst nextArc) (snd nextArc) D) as HR.
  destruct (revise (fst nextArc) (snd nextArc) D) as [[[|]|e] D']; simpl in HR.
  - destruct (lookup (fst nextArc) D') as [dom|]; [|exact HR].
    destruct (List.length dom =? 0); [exact HR|].
    eapply shrinks_trans; [exact HR | apply IH].
  - eapply shrinks_trans; [exact HR | apply IH].
  - exact HR.
Qed.

(** C7.  Node consistency, [revise] and [ac3], run in any number and in any
    order, whatever they return or raise, leave the slots of the store as
    they were and every domain a subset of what it was: no word is added. *)
Theorem monotonic_shrink (ops : list operation) (D : store) :
  shrinks D (run_all ops D).
Proof.
  revert D. induction ops as [|op ops IH]; intros D; [apply shrinks_refl|].
  simpl. eapply shrinks_trans; [|apply IH].
  destruct op as [|x y|arcs]; simpl.
  - apply enforce_shrinks.
  - apply revise_shrinks.
  - apply ac3_loop_shrinks.
Qed.

(** C3 (as the code has it).  On two slots with no overlap [revise] changes
    no domain, and it does not return: subscripting the missing overlap
    raises [TypeError]. *)
Theorem revise_without_overlap (x y : variable) (D : store) :
  overlaps cw x y = None -> revise x y D = (Raise TypeError, D).
Proof.
  intros H. unfold revise, bind, lift, overlap_of. rewrite H. reflexivity.
Qed.

(** C9.  A second run of node consistency leaves, slot by slot, the set of
    words the first run left. *)
Theorem node_consistency_idempotent (D : store) :
  same_domains
    (snd (enforce_node_consistency (snd (enforce_node_consistency D))))
    (snd (enforce_node_consistency D)).
Proof.
  simpl. induction D as [|[var dom] D IH]; simpl; constructor; [|exact IH].
  simpl. split; [reflexivity|].
  eapply Permutation_trans; [apply word_set_perm|].
  eapply Permutation_trans; [apply filter_perm, word_set_perm|].
  eapply Permutation_trans; [|apply Permutation_sym, word_set_perm].
  rewrite filter_idem. apply Permutation_refl.
Qed.

(** ** Choosing the next slot *)

Lemma fewest_loop (l : list (variable * list word)) :
  match fold_left fewest_step l (None, []) with
  | (None, fs) => l = [] /\ fs = []
  | (Some m, fs) =>
      fs <> [] /\
      (forall v, In v fs -> exists d, In (v, d) l /\ List.length d = m) /\
      (forall e, In e l -> m <= List.length (snd e)) /\
      (forall e, In e l -> List.length (snd e) = m -> In (fst e) fs)
  end.
Proof.
  induction l as [|e l IH] using rev_ind; simpl; [auto|].
  rewrite fold_left_app. simpl.
  destruct (fold_left fewest_step l (None, [])) as [[m|] fs]; unfold fewest_step; simpl.
  - destruct IH as (Hne & Hin & Hmin & Hall).
    destruct (List.length (snd e) <? m) eqn:Lt; [|destruct (List.length (snd e) =? m) eqn:Eq].
    + apply Nat.ltb_lt in Lt. repeat split.
      * discriminate.
      * intros v [<-|[]]. exists (snd e). split; [|reflexivity].
        apply in_or_app. right. left. destruct e; reflexivity.
      * intros e' He'. apply in_app_or in He'. destruct He' as [He'|[<-|[]]]; [|lia].
        specialize (Hmin e' He'). lia.
      * intros e' He' Hl. apply in_app_or in He'. destruct He' as [He'|[<-|[]]]; [|left; reflexivity].
        specialize (Hmin e' He'). lia.
    + apply Nat.eqb_eq in Eq. repeat split.
      * destruct fs; discriminate.
      * intros v Hv. apply in_app_or in Hv. destruct Hv as [Hv|[<-|[]]].
        -- destruct (Hin v Hv) as (d & Hd & Hl). exists d. split; [apply in_or_app; left; exact Hd | exact Hl].
        -- exists (snd e). split; [|exact Eq]. apply in_or_app. right. left. destruct e; reflexivity.
      * intros e' He'. apply in_app_or in He'. destruct He' as [He'|[<-|[]]]; [auto | lia].
      * intros e' He' Hl. apply in_or_app. apply in_app_or in He'.
        destruct He' as [He'|[<-|[]]]; [left; auto | right; left; reflexivity].
    + apply Nat.ltb_ge in Lt. apply Nat.eqb_neq in Eq. repeat split.
      * exact Hne.
      * intros v Hv. destruct (Hin v Hv) as (d & Hd & Hl). exists d. split; [apply in_or_app; left; exact Hd | exact Hl].
      * intros e' He'. apply in_app_or in He'. destruct He' as [He'|[<-|[]]]; [auto | lia].
      * intros e' He' Hl. apply in_app_or in He'. destruct He' as [He'|[<-|[]]]; [auto | lia].
  - destruct IH as [-> ->]. simpl. repeat split.
    + discriminate.
    + intros v [<-|[]]. exists (snd e). split; [left; destruct e; reflexivity | reflexivity].
    + intros e' [<-|[]]. lia.
    + intros e' [<-|[]] _. left. reflexivity.
Qed.

Lemma degree_loop (l : list variable) :
  let r := fold_left degree_step l (0, []) in
  (l = [] /\ r = (0, [])) \/
  (snd r <> [] /\
   (forall v, In v (snd r) -> In v l /\ List.length (neighbors v) = fst r) /\
   (forall u, In u l -> List.length (neighbors u) <= fst r)).
Proof.
  induction l as [|v l IH] using rev_ind; simpl; [left; auto|].
  right. rewrite fold_left_app. simpl.
  destruct (fold_left degree_step l (0, [])) as [dv ls]. unfold degree_step. simpl in *.
  destruct IH as [[-> E]|(Hne & Hin & Hmax)].
  - inversion E; subst. simpl.
    destruct (0 <? List.length (neighbors v)) eqn:Lt; simpl.
    + repeat split; try discriminate.
      * destruct H as [<-|[]]. left. reflexivity.
      * destruct H as [<-|[]]. reflexivity.
      * intros u [<-|[]]. lia.
    + apply Nat.ltb_ge in Lt. assert (E0 : List.length (neighbors v) = 0) by lia.
      rewrite E0. simpl. repeat split; try discriminate.
      * destruct H as [<-|[]]. left. reflexivity.
      * destruct H as [<-|[]]. exact E0.
      * intros u [<-|[]]. lia.
  - destruct (dv <? List.length (neighbors v)) eqn:Lt;
      [|destruct (List.length (neighbors v) =? dv) eqn:Eq]; simpl.
    + apply Nat.ltb_lt in Lt. repeat split; try discriminate.
      * destruct H as [<-|[]]. apply in_or_app. right. left. reflexivity.
      * destruct H as [<-|[]]. reflexivity.
      * intros u Hu. apply in_app_or in Hu. destruct Hu as [Hu|[<-|[]]]; [|lia].
        specialize (Hmax u Hu). lia.
    + apply Nat.eqb_eq in Eq. repeat split.
      * destruct ls; discriminate.
      * apply in_app_or in H. apply in_or_app. destruct H as [H|[<-|[]]]; [left; apply Hin, H | right; left; reflexivity].
      * apply in_app_or in H. destruct H as [H|[<-|[]]]; [apply Hin, H | exact Eq].
      * intros u Hu. apply in_app_or in Hu. destruct Hu as [Hu|[<-|[]]]; [auto | lia].
    + apply Nat.ltb_ge in Lt. apply Nat.eqb_neq in Eq. repeat split.
      * exact Hne.
      * apply in_or_app. left. apply Hin, H.
      * apply Hin, H.
      * intros u Hu. apply in_app_or in Hu. destruct Hu as [Hu|[<-|[]]]; [auto | lia].
Qed.

Lemma assignment_complete_true D a :
  assignment_complete D a = true <-> complete D a.
Proof.
  unfold assignment_complete, complete. rewrite forallb_forall.
  split; intros H v Hv.
  - apply lookup_Some_keys, mem_true_keys, H, Hv.
  - apply mem_true_keys, lookup_Some_keys, H, Hv.
Qed.

Lemma unassigned_nil D a :
  filter (fun entry : variable * list word => negb (mem (fst entry) a)) D = [] <->
  assignment_complete D a = true.
Proof.
  unfold assignment_complete, keys. rewrite forallb_forall. split.
  - intros H v Hv. apply in_map_iff in Hv. destruct Hv as (e & <- & He).
    destruct (mem (fst e) a) eqn:E; [reflexivity|].
    assert (In e (filter (fun entry : variable * list word => negb (mem (fst entry) a)) D))
      by (apply filter_In; rewrite E; auto).
    rewrite H in H0. destruct H0.
  - intros H. induction D as [|e D IH]; simpl; [reflexivity|].
    rewrite (H (fst e)) by (left; reflexivity). simpl. apply IH.
    intros v Hv. apply H. right. exact Hv.
Qed.

Lemma select_complete D a :
  assignment_complete D a = true ->
  select_unassigned_variable D a = Raise IndexError.
Proof.
  intros H. apply unassigned_nil in H. unfold select_unassigned_variable.
  rewrite H. reflexivity.
Qed.

Lemma select_incomplete D a :
  assignment_complete D a = false ->
  exists var dom,
    select_unassigned_variable D a = Ok var /\
    In (var, dom) D /\ mem var a = false /\
    (forall u du, In (u, du) D -> mem u a = false ->
                  List.length dom <= List.length du) /\
    (forall u du, In (u, du) D -> mem u a = false ->
                  List.length du = List.length dom ->
                  List.length (neighbors u) <= List.length (neighbors var)).
Proof.
  intros Hc. unfold select_unassigned_variable.
  set (un := filter (fun entry : variable * list word => negb (mem (fst entry) a)) D).
  assert (Hun : un <> []).
  { intros E. apply unassigned_nil in E. congruence. }
  pose proof (fewest_loop un) as HF.
  destruct (fold_left fewest_step un (None, [])) as [[m|] fs]; simpl;
    [|destruct HF; contradiction].
  destruct HF as (Hne & Hin & Hmin & Hall).
  assert (Hpick : forall var, In var fs ->
            (forall u, In u fs -> List.length (neighbors u) <= List.length (neighbors var)) ->
            exists dom, In (var, dom) D /\ mem var a = false /\
              (forall u du, In (u, du) D -> mem u a = false ->
                            List.length dom <= List.length du) /\
              (forall u du, In (u, du) D -> mem u a = false ->
                            List.length du = List.length dom ->
                            List.length (neighbors u) <= List.length (neighbors var))).
  { intros var Hvar Hdeg. destruct (Hin var Hvar) as (dom & Hd & Hl).
    apply filter_In in Hd. destruct Hd as [Hd Hm]. simpl in Hm. apply negb_true_iff in Hm.
    exists dom. repeat split; auto.
    - intros u du Hu Hmu.
      assert (Iu : In (u, du) un) by (apply filter_In; simpl; rewrite Hmu; auto).
      specialize (Hmin _ Iu). simpl in Hmin. lia.
    - intros u du Hu Hmu Hlen.
      assert (Iu : In (u, du) un) by (apply filter_In; simpl; rewrite Hmu; auto).
      apply Hdeg. apply (Hall _ Iu). simpl. lia. }
  destruct (List.length fs =? 1) eqn:E1.
  - apply Nat.eqb_eq in E1. destruct fs as [|var [|? ?]]; try discriminate.
    destruct (Hpick var) as (dom & H); [left; reflexivity | intros u [<-|[]]; lia |].
    exists var, dom. split; [reflexivity | exact H].
  - pose proof (degree_loop fs) as HD. simpl in HD.
    destruct HD as [[E _]|(Hne2 & Hin2 & Hmax2)]; [contradiction|].
    destruct (fold_left degree_step fs (0, [])) as [dv ls]. simpl in *.
    destruct ls as [|var ls]; [contradiction|].
    destruct (Hin2 var (or_introl eq_refl)) as [Hvar Hdv].
    destruct (Hpick var Hvar) as (dom & H).
    { intros u Hu. rewrite Hdv. apply Hmax2, Hu. }
    exists var, dom. split; [reflexivity | exact H].
Qed.

(** C10.  With a slot of the store left unassigned,
    [select_unassigned_variable] returns an unassigned slot of the store that
    has the fewest remaining words and, among those, the most neighbours.
    With every slot assigned it raises [IndexError] and returns no sentinel;
    [backtrack] returns the complete assignment before it would ask. *)
Theorem select_unassigned_variable_contract (D : store) (a : assignment) :
  (assignment_complete D a = false ->
   exists var dom,
     select_unassigned_variable D a = Ok var /\
     In (var, dom) D /\ mem var a = false /\
     (forall u du, In (u, du) D -> mem u a = false ->
                   List.length dom <= List.length du) /\
     (forall u du, In (u, du) D -> mem u a = false ->
                   List.length du = List.length dom ->
                   List.length (neighbors u) <= List.length (neighbors var))) /\
  (assignment_complete D a = true ->
   select_unassigned_variable D a = Raise IndexError /\
   forall fuel, backtrack (S fuel) D a = ([Call a], Ok (Some a))).
Proof.
  split.
  - apply select_incomplete.
  - intros H. split; [apply select_complete, H|].
    intros fuel. simpl. rewrite H. reflexivity.
Qed.

(** ** The structural contract *)

Lemma on_distinct_slots_spec f :
  on_distinct_slots f = true ->
  forall x y, In x (variables cw) -> In y (variables cw) -> x <> y -> f x y = true.
Proof.
  unfold on_distinct_slots. rewrite forallb_forall. intros H x y Hx Hy N.
  specialize (H x Hx). rewrite forallb_forall in H. specialize (H y Hy).
  apply orb_true_iff in H. destruct H as [H|H]; [|exact H].
  apply var_eqb_true in H. contradiction.
Qed.

Lemma symmetric_swap :
  symmetric_overlaps = true ->
  forall x y i j, In x (variables cw) -> In y (variables cw) -> x <> y ->
                  overlaps cw x y = Some (i, j) -> overlaps cw y x = Some (j, i).
Proof.
  intros H x y i j Hx Hy N Ho.
  pose proof (on_distinct_slots_spec _ H x y Hx Hy N) as S.
  unfold symmetric_pair in S. rewrite Ho in S.
  destruct (overlaps cw y x) as [[b' a']|]; [|discriminate].
  apply andb_true_iff in S. destruct S as [S1 S2].
  apply Nat.eqb_eq in S1, S2. congruence.
Qed.

Lemma in_range_spec :
  offsets_in_range = true ->
  forall x y i j, In x (variables cw) -> In y (variables cw) -> x <> y ->
                  overlaps cw x y = Some (i, j) -> i < var_length x /\ j < var_length y.
Proof.
  intros H x y i j Hx Hy N Ho.
  pose proof (on_distinct_slots_spec _ H x y Hx Hy N) as S.
  unfold in_range_pair in S. rewrite Ho in S.
  apply andb_true_iff in S. destruct S as [S1 S2].
  apply Nat.ltb_lt in S1, S2. auto.
Qed.

Lemma no_repeat_NoDup l : no_repeat l = true -> NoDup l.
Proof.
  induction l as [|x l IH]; simpl; [constructor|].
  intros H. apply andb_true_iff in H. destruct H as [H1 H2].
  constructor; [|auto]. intros I. apply negb_true_iff in H1.
  assert (existsb (var_eqb x) l = true); [|congruence].
  apply existsb_exists. exists x. split; [exact I | apply var_eqb_true; reflexivity].
Qed.

Lemma neighbour_overlap :
  symmetric_overlaps = true ->
  forall x y, In x (variables cw) -> In y (neighbors x) ->
              exists i j, overlaps cw x y = Some (i, j) /\ overlaps cw y x = Some (j, i).
Proof.
  intros H x y Hx Hy. apply In_neighbors in Hy. destruct Hy as (Hy & N & [[j i] Ho]).
  exists i, j. split; [|exact Ho].
  apply (symmetric_swap H) with (1 := Hy) (2 := Hx) (3 := N) (4 := Ho).
Qed.

Lemma neighbour_sym :
  symmetric_overlaps = true ->
  forall x y, In x (variables cw) -> In y (neighbors x) -> In x (neighbors y).
Proof.
  intros H x y Hx Hy. destruct (neighbour_overlap H x y Hx Hy) as (i & j & Ho & _).
  apply In_neighbors in Hy. destruct Hy as (Hy & N & _).
  apply In_neighbors. split; [exact Hx|]. split; [congruence | eauto].
Qed.

Lemma get_in_range (s : string) (k : nat) :
  k < String.length s -> exists c, String.get k s = Some c.
Proof.
  revert k. induction s as [|c s IH]; simpl; intros k H; [lia|].
  destruct k as [|k]; [eauto|]. apply IH. lia.
Qed.

(** ** The consistency check *)

Lemma duplicate_word_false a :
  duplicate_word a = false <-> NoDup (map snd a).
Proof.
  induction a as [|[v w] a IH]; simpl.
  - split; [constructor | reflexivity].
  - rewrite orb_false_iff, IH. split.
    + intros [H1 H2]. constructor; [|exact H2].
      intros I. apply in_map_iff in I. destruct I as (p & Hp & I).
      assert (existsb (fun p => String.eqb w (snd p)) a = true); [|congruence].
      apply existsb_exists. exists p. split; [exact I|]. apply String.eqb_eq. auto.
    + intros H. inversion H; subst. split; [|assumption].
      destruct (existsb (fun p => String.eqb w (snd p)) a) eqn:E; [|reflexivity].
      apply existsb_exists in E. destruct E as (p & I & E). apply String.eqb_eq in E.
      exfalso. apply H2. rewrite E. apply in_map, I.
Qed.

Lemma NoDup_values_distinct (a : assignment) :
  NoDup (keys a) -> (NoDup (map snd a) <-> distinct_words a).
Proof.
  intros ND. split.
  - intros NV x y w N Hx Hy.
    apply lookup_In in Hx, Hy. clear ND.
    induction a as [|[k v] a IH]; simpl in *; [tauto|].
    inversion NV; subst.
    destruct Hx as [Ex|Ix], Hy as [Ey|Iy].
    + congruence.
    + inversion Ex; subst. apply H1. change w with (snd (y, w)). apply in_map, Iy.
    + inversion Ey; subst. apply H1. change w with (snd (x, w)). apply in_map, Ix.
    + auto.
  - intros DW. induction a as [|[k v] a IH]; simpl in *; [constructor|].
    inversion ND; subst. constructor.
    + intros I. apply in_map_iff in I. destruct I as ([k' v'] & E & I). simpl in E. subst v'.
      assert (N : k <> k').
      { intros ->. apply H1. change k' with (fst (k', v)). apply in_map, I. }
      apply (DW k k' v N).
      * simpl. destruct (variable_eq_dec k k); congruence.
      * simpl. destruct (variable_eq_dec k' k); [congruence|]. apply In_lookup; assumption.
    + apply IH; [assumption|]. intros x y w N Hx Hy.
      assert (Nx : x <> k).
      { intros ->. apply lookup_In in Hx. apply H1. change k with (fst (k, w)). apply in_map, Hx. }
      assert (Ny : y <> k).
      { intros ->. apply lookup_In in Hy. apply H1. change k with (fst (k, w)). apply in_map, Hy. }
      apply (DW x y w N); simpl.
      * destruct (variable_eq_dec x k); [contradiction | exact Hx].
      * destruct (variable_eq_dec y k); [contradiction | exact Hy].
Qed.

Lemma length_check_false (a : assignment) :
  NoDup (keys a) ->
  (existsb (fun p => negb (var_length (fst p) =? String.length (snd p))) a = false
   <-> lengths_fit a).
Proof.
  intros ND. split.
  - intros H x w Hx. apply lookup_In in Hx.
    destruct (Nat.eq_dec (var_length x) (String.length w)) as [E|N]; [auto|].
    assert (existsb (fun p => negb (var_length (fst p) =? String.length (snd p))) a = true);
      [|congruence].
    apply existsb_exists. exists (x, w). split; [exact Hx|]. simpl.
    apply negb_true_iff, Nat.eqb_neq, N.
  - intros H.
    destruct (existsb (fun p => negb (var_length (fst p) =? String.length (snd p))) a) eqn:E;
      [|reflexivity].
    apply existsb_exists in E. destruct E as ([x w] & I & E). simpl in E.
    apply negb_true_iff, Nat.eqb_neq in E. exfalso. apply E. symmetry. apply H.
    apply In_lookup; assumption.
Qed.

Lemma check_arcs_true a arcs :
  check_arcs a arcs = Ok true <->
  forall x y, In (x, y) arcs ->
    exists i j wx wy,
      overlaps cw x y = Some (i, j) /\ lookup x a = Some wx /\
      lookup y a = Some wy /\ agree_at wx i wy j.
Proof.
  induction arcs as [|[x y] arcs IH]; simpl.
  - split; [intros _ x y [] | reflexivity].
  - unfold overlap_of, value_of, char_at, agree_at.
    destruct (overlaps cw x y) as [[i j]|] eqn:Ho; simpl.
    2:{ split; [discriminate|]. intros H.
        destruct (H x y (or_introl eq_refl)) as (? & ? & ? & ? & ? & _). congruence. }
    destruct (lookup x a) as [wx|] eqn:Hx; simpl.
    2:{ split; [discriminate|]. intros H.
        destruct (H x y (or_introl eq_refl)) as (? & ? & ? & ? & _ & ? & _). congruence. }
    destruct (String.get i wx) as [cx|] eqn:Gx; simpl.
    2:{ split; [discriminate|]. intros H.
        destruct (H x y (or_introl eq_refl)) as (i' & j' & wx' & wy' & Ho' & Hx' & _ & c & G & _).
        congruence. }
    destruct (lookup y a) as [wy|] eqn:Hy; simpl.
    2:{ split; [discriminate|]. intros H.
        destruct (H x y (or_introl eq_refl)) as (? & ? & ? & ? & _ & _ & ? & _). congruence. }
    destruct (String.get j wy) as [cy|] eqn:Gy; simpl.
    2:{ split; [discriminate|]. intros H.
        destruct (H x y (or_introl eq_refl)) as (i' & j' & wx' & wy' & Ho' & _ & Hy' & c & _ & G).
        congruence. }
    destruct (Ascii.eqb cx cy) eqn:E; simpl.
    + apply Ascii.eqb_eq in E. subst cy. rewrite IH. split.
      * intros H x' y' [Ea|I]; [|auto]. inversion Ea; subst.
        exists i, j, wx, wy. repeat split; auto. exists cx. auto.
      * intros H x' y' I. apply H. right. exact I.
    + split; [discriminate|]. intros H.
      destruct (H x y (or_introl eq_refl)) as (i' & j' & wx' & wy' & Ho' & Hx' & Hy' & c & G1 & G2).
      apply Ascii.eqb_neq in E. exfalso. apply E. congruence.
Qed.

Lemma check_arcs_total a arcs :
  (forall x y, In (x, y) arcs ->
     exists i j wx wy,
       overlaps cw x y = Some (i, j) /\ lookup x a = Some wx /\
       lookup y a = Some wy /\ i < String.length wx /\ j < String.length wy) ->
  exists b, check_arcs a arcs = Ok b.
Proof.
  induction arcs as [|[x y] arcs IH]; simpl; intros H; [eauto|].
  destruct (H x y (or_introl eq_refl)) as (i & j & wx & wy & Ho & Hx & Hy & Li & Lj).
  destruct (get_in_range _ _ Li) as [cx Gx]. destruct (get_in_range _ _ Lj) as [cy Gy].
  unfold overlap_of, value_of, char_at. rewrite Ho. simpl. rewrite Hx. simpl.
  rewrite Gx. simpl. rewrite Hy. simpl. rewrite Gy. simpl.
  destruct (Ascii.eqb cx cy); simpl; [|eauto].
  apply IH. intros x' y' I. apply H. right. exact I.
Qed.

Lemma In_assigned_arcs (a : assignment) x y :
  In (x, y) (assigned_arcs a) <->
  In x (keys a) /\ In y (neighbors x) /\ In y (keys a).
Proof.
  unfold assigned_arcs. rewrite in_flat_map. split.
  - intros (v & Hv & I). apply in_map_iff in I. destruct I as (n & E & I).
    inversion E; subst. apply filter_In in I. destruct I as [I M].
    apply mem_true_keys in M. auto.
  - intros (Hx & Hy & Ky). exists x. split; [exact Hx|].
    apply in_map_iff. exists y. split; [reflexivity|].
    apply filter_In. split; [exact Hy | apply mem_true_keys, Ky].
Qed.

Lemma arcs_agree_iff (a : assignment) :
  symmetric_overlaps = true ->
  incl (keys a) (variables cw) ->
  (check_arcs a (assigned_arcs a) = Ok true <-> overlaps_agree a).
Proof.
  intros Sym Inc. rewrite check_arcs_true. split.
  - intros H x y wx wy i j N Hx Hy Ho.
    assert (Kx : In x (keys a)) by (apply lookup_Some_keys; eauto).
    assert (Ky : In y (keys a)) by (apply lookup_Some_keys; eauto).
    destruct (H x y) as (i' & j' & wx' & wy' & Ho' & Hx' & Hy' & Ag).
    { apply In_assigned_arcs. split; [exact Kx|]. split; [|exact Ky].
      apply In_neighbors. split; [apply Inc, Ky|]. split; [congruence|].
      exists (j, i). apply (symmetric_swap Sym); auto. }
    congruence.
  - intros H x y I. apply In_assigned_arcs in I. destruct I as (Kx & Ny & Ky).
    destruct (neighbour_overlap Sym x y (Inc _ Kx) Ny) as (i & j & Ho & _).
    apply lookup_Some_keys in Kx, Ky. destruct Kx as [wx Hx], Ky as [wy Hy].
    exists i, j, wx, wy. repeat split; auto.
    apply In_neighbors in Ny. apply (H x y wx wy i j); auto. intros ->. tauto.
Qed.

Lemma consistent_true (a : assignment) :
  symmetric_overlaps = true ->
  NoDup (keys a) ->
  incl (keys a) (variables cw) ->
  (consistent a = Ok true <-> consistent_spec a).
Proof.
  intros Sym ND Inc. unfold consistent, consistent_spec.
  rewrite <- (NoDup_values_distinct a ND), <- duplicate_word_false.
  rewrite <- (length_check_false a ND), <- (arcs_agree_iff a Sym Inc).
  destruct (duplicate_word a); [split; [discriminate | intros [H _]; discriminate]|].
  destruct (existsb (fun p => negb (var_length (fst p) =? String.length (snd p))) a);
    [split; [discriminate | intros (_ & H & _); discriminate]|].
  tauto.
Qed.

(** C6.  On an assignment to slots of the puzzle, [consistent] returns true
    exactly when the assigned words are pairwise distinct, each has the
    length of its slot, and every two assigned slots that overlap carry the
    same letter at their offsets; unassigned slots are not looked at. *)
Theorem consistent_iff (a : assignment) :
  symmetric_overlaps = true ->
  NoDup (keys a) ->
  incl (keys a) (variables cw) ->
  (consistent a = Ok true <-> consistent_spec a).
Proof.
  intros Sym ND Inc. split; intros H.
  - apply (proj1 (consistent_true a Sym ND Inc) H).
  - apply (proj2 (consistent_true a Sym ND Inc) H).
Qed.

Lemma consistent_total (a : assignment) :
  symmetric_overlaps = true -> offsets_in_range = true ->
  NoDup (keys a) -> incl (keys a) (variables cw) ->
  exists b, consistent a = Ok b.
Proof.
  intros Sym Rng ND Inc. unfold consistent.
  destruct (duplicate_word a); [eauto|].
  destruct (existsb (fun p => negb (var_length (fst p) =? String.length (snd p))) a) eqn:E;
    [eauto|].
  apply (length_check_false a ND) in E.
  apply check_arcs_total. intros x y I.
  apply In_assigned_arcs in I. destruct I as (Kx & Ny & Ky).
  destruct (neighbour_overlap Sym x y (Inc _ Kx) Ny) as (i & j & Ho & _).
  assert (N : x <> y) by (apply In_neighbors in Ny; intros ->; tauto).
  destruct (in_range_spec Rng x y i j (Inc _ Kx) (Inc _ Ky) N Ho) as [Li Lj].
  apply lookup_Some_keys in Kx, Ky. destruct Kx as [wx Hx], Ky as [wy Hy].
  exists i, j, wx, wy. rewrite (E x wx Hx), (E y wy Hy). auto.
Qed.

(** ** Ordering the words of a slot *)






Lemma map_res_Ok {A B} (f : A -> res B) (g : A -> B) l :
  (forall a, In a l -> f a = Ok (g a)) -> map_res f l = Ok (map g l).
Proof.
  induction l as [|a l IH]; simpl; intros H; [reflexivity|].
  rewrite (H a (or_introl eq_refl)). simpl. rewrite IH; [reflexivity|].
  intros b Hb. apply H. right. exact Hb.
Qed.




(** ** Arc consistency *)

Lemma any_agree_true w xi ys yi :
  any_agree w xi ys yi = Ok true -> exists w', In w' ys /\ agree_at w xi w' yi.
Proof.
  induction ys as [|y ys IH]; simpl; [discriminate|].
  unfold char_at. destruct (String.get xi w) as [a|] eqn:Ga; simpl; [|discriminate].
  destruct (String.get yi y) as [b|] eqn:Gb; simpl; [|discriminate].
  destruct (Ascii.eqb a b) eqn:E.
  - intros _. apply Ascii.eqb_eq in E. subst b. exists y. split; [left; reflexivity|].
    exists a. auto.
  - intros H. destruct (IH H) as (w' & I & Ag). exists w'. split; [right; exact I | exact Ag].
Qed.

Lemma any_agree_found w xi ys yi t w' :
  any_agree w xi ys yi = Ok t -> In w' ys -> agree_at w xi w' yi -> t = true.
Proof.
  intros H I (c & Gw & Gw'). induction ys as [|y ys IH]; simpl in *; [tauto|].
  unfold char_at in H. rewrite Gw in H. simpl in H.
  destruct (String.get yi y) as [b|] eqn:Gb; simpl in H; [|discriminate].
  destruct (Ascii.eqb c b) eqn:E; [congruence|].
  destruct I as [->|I]; [|auto].
  apply Ascii.eqb_neq in E. congruence.
Qed.

Lemma kept_by_supported D x y xi yi w :
  overlaps cw x y = Some (xi, yi) ->
  kept_by D y xi yi w = true -> supported D x y w.
Proof.
  intros Ho. unfold kept_by, has_partner, domain_of.
  destruct (lookup y D) as [domy|] eqn:Hy; simpl; [|discriminate].
  destruct (any_agree w xi domy yi) as [[|]|] eqn:E; try discriminate. intros _.
  apply any_agree_true in E. destruct E as (w' & I & Ag).
  exists xi, yi, domy, w'. auto.
Qed.

Lemma supported_kept_by D x y xi yi w t :
  overlaps cw x y = Some (xi, yi) ->
  has_partner D y xi yi w = Ok t ->
  supported D x y w -> kept_by D y xi yi w = true.
Proof.
  intros Ho Ht (i & j & domy & w' & Ho' & Hy & I & Ag).
  rewrite Ho in Ho'. inversion Ho'; subst i j.
  unfold kept_by. rewrite Ht. unfold has_partner, domain_of in Ht. rewrite Hy in Ht. simpl in Ht.
  rewrite (any_agree_found _ _ _ _ _ _ Ht I Ag). reflexivity.
Qed.

Lemma supported_other D x s u v w :
  v <> x -> In x (keys D) ->
  supported D u v w -> supported (update D x s) u v w.
Proof.
  intros N K (i & j & domv & w' & Ho & Hv & I & Ag).
  exists i, j, domv, w'. rewrite lookup_update_other by congruence. auto.
Qed.

Lemma revise_supports x y D b D' :
  x <> y -> revise x y D = (Ok b, D') -> arc_supported D' x y.
Proof.
  intros N E. apply revise_inv in E.
  destruct E as (xi & yi & domx & Ho & Hx & Hall & Hb & ->).
  assert (Kx : In x (keys D)) by (apply lookup_Some_keys; eauto).
  destruct b.
  - intros d w Hd Hw. rewrite lookup_update_same in Hd. inversion Hd; subst d.
    apply In_word_set, In_word_set, filter_In in Hw.
    apply supported_other; [congruence | exact Kx|].
    apply (kept_by_supported D x y xi yi w Ho). tauto.
  - intros d w Hd Hw. rewrite Hx in Hd. inversion Hd; subst d.
    apply (kept_by_supported D x y xi yi w Ho).
    apply filter_all with (l := domx); [|exact Hw].
    symmetry in Hb. apply negb_false_iff, Nat.eqb_eq in Hb. exact Hb.
Qed.

Lemma revise_keeps_support x y D D' u v :
  revise x y D = (Ok true, D') -> v <> x ->
  arc_supported D u v -> arc_supported D' u v.
Proof.
  intros E N S. apply revise_inv in E.
  destruct E as (xi & yi & domx & Ho & Hx & Hall & Hb & ->).
  assert (Kx : In x (keys D)) by (apply lookup_Some_keys; eauto).
  intros d w Hd Hw. apply supported_other; [exact N | exact Kx|].
  destruct (variable_eq_dec x u) as [<-|Nu].
  - rewrite lookup_update_same in Hd. inversion Hd; subst d.
    apply In_word_set, In_word_set, filter_In in Hw. apply (S domx w Hx). tauto.
  - rewrite lookup_update_other in Hd by exact Nu. apply (S d w Hd Hw).
Qed.

Lemma revise_keeps_reverse x y D D' xi yi :
  x <> y ->
  overlaps cw x y = Some (xi, yi) -> overlaps cw y x = Some (yi, xi) ->
  revise x y D = (Ok true, D') ->
  arc_supported D y x -> arc_supported D' y x.
Proof.
  intros N Ho Ho' E S. apply revise_inv in E.
  destruct E as (xi' & yi' & domx & Ho2 & Hx & Hall & Hb & ->).
  rewrite Ho in Ho2. inversion Ho2; subst xi' yi'.
  intros d w Hd Hw. rewrite lookup_update_other in Hd by exact N.
  destruct (S d w Hd Hw) as (i & j & domx' & w' & Ho3 & Hx' & I & Ag).
  rewrite Ho' in Ho3. inversion Ho3; subst i j.
  rewrite Hx in Hx'. inversion Hx'; subst domx'.
  exists yi, xi, (word_set (word_set (filter (kept_by D y xi yi) domx))), w'.
  rewrite lookup_update_same. repeat split; auto.
  apply In_word_set, In_word_set, filter_In. split; [exact I|].
  destruct (Hall w' I) as [t Ht].
  apply (supported_kept_by D x y xi yi w' t Ho Ht).
  destruct Ag as (c & G1 & G2).
  exists xi, yi, d, w. repeat split; auto. exists c. auto.
Qed.

Lemma ac3_loop_sound fuel :
  symmetric_overlaps = true ->
  forall arcs D D',
    neighbour_arcs arcs -> pending_or_supported arcs D ->
    ac3_loop fuel arcs D = (Ok true, D') -> arc_consistent D'.
Proof.
  intros Sym. induction fuel as [|fuel IH]; intros arcs D D' NA PS E; [discriminate|].
  destruct arcs as [|[x y] arcs].
  - inversion E; subst. intros u v Hu Hv.
    destruct (PS u v Hu Hv) as [[]|S]. exact S.
  - rewrite ac3_loop_step in E. simpl in E.
    destruct (NA x y (or_introl eq_refl)) as [Vx Ny].
    destruct (neighbour_overlap Sym x y Vx Ny) as (xi & yi & Ho & Ho').
    assert (N : x <> y) by (apply In_neighbors in Ny; intros ->; tauto).
    destruct (revise x y D) as [[[|]|e] D1] eqn:ER; [| |discriminate].
    + destruct (lookup x D1) as [dom|]; [|discriminate].
      destruct (List.length dom =? 0); [discriminate|].
      apply IH in E; [exact E | |].
      * intros u v I. apply in_app_or in I. destruct I as [I|I]; [apply NA; right; exact I|].
        apply in_map_iff in I. destruct I as (n & En & I).
        assert (u = n /\ v = x) as [-> ->] by (inversion En; auto).
        apply filter_In in I. destruct I as [I _].
        split; [apply In_neighbors in I; tauto | apply (neighbour_sym Sym x n Vx I)].
      * intros u v Hu Hv.
        destruct (PS u v Hu Hv) as [[Ea|I]|S].
        -- assert (u = x /\ v = y) as [-> ->] by (inversion Ea; auto).
           right. apply (revise_supports x y D true D1 N ER).
        -- left. apply in_or_app. left. exact I.
        -- destruct (variable_eq_dec v x) as [->|Nv].
           ++ destruct (variable_eq_dec u y) as [->|Nu].
              ** right. apply (revise_keeps_reverse x y D D1 xi yi N Ho Ho' ER S).
              ** left. apply in_or_app. right. apply in_map_iff. exists u. split; [reflexivity|].
                 apply filter_In. split; [apply (neighbour_sym Sym u x Hu Hv)|].
                 apply negb_true_iff, var_eqb_false, Nu.
           ++ right. apply (revise_keeps_support x y D D1 u v ER Nv S).
    + apply IH in E; [exact E | |].
      * intros u v I. apply NA. right. exact I.
      * assert (D1 = D) as ->.
        { apply revise_inv in ER. destruct ER as (? & ? & ? & _ & _ & _ & _ & ->). reflexivity. }
        intros u v Hu Hv.
        destruct (PS u v Hu Hv) as [[Ea|I]|S]; [|left; exact I | right; exact S].
        assert (u = x /\ v = y) as [-> ->] by (inversion Ea; auto).
        right. apply (revise_supports x y D false D N ER).
Qed.

Lemma In_all_arcs D x y :
  In (x, y) (all_arcs D) <-> In x (keys D) /\ In y (neighbors x).
Proof.
  unfold all_arcs. rewrite in_flat_map. split.
  - intros (v & Hv & I). apply in_map_iff in I. destruct I as (n & E & I).
    inversion E; subst. auto.
  - intros [Hx Hy]. exists x. split; [exact Hx|]. apply in_map_iff. eauto.
Qed.

(** C5.  When [ac3], given no arcs, returns true on a store over the slots of
    a puzzle with symmetric overlaps, every word left in the domain of a slot
    x has, for every neighbour y of x, a word in the domain of y with the
    same letter at the offsets of the overlap of x and y. *)
Theorem ac3_sound (D D' : store) :
  symmetric_overlaps = true ->
  keys D = variables cw ->
  ac3 None D = (Ok true, D') ->
  arc_consistent D'.
Proof.
  intros Sym HK E. unfold ac3 in E.
  apply (ac3_loop_sound _ Sym) in E; [exact E | |].
  - intros x y I. apply In_all_arcs in I. rewrite HK in I. exact I.
  - intros x y Hx Hy. left. apply In_all_arcs. rewrite HK. auto.
Qed.

(** ** [ac3] returns *)

Lemma node_consistent_shrinks D D' :
  shrinks D D' -> node_consistent D -> node_consistent D'.
Proof.
  intros [_ H] NC x d' w Hx Hw. destruct (H x d' Hx) as (d & Hd & I).
  apply (NC x d w Hd), I, Hw.
Qed.

Lemma enforce_node_consistent D : node_consistent (snd (enforce_node_consistency D)).
Proof.
  intros x d w. rewrite lookup_enforce. destruct (lookup x D) as [d0|]; simpl; [|discriminate].
  intros E Hw. inversion E; subst d. apply In_word_set, filter_In in Hw.
  apply Nat.eqb_eq. tauto.
Qed.

Lemma any_agree_total w xi ys yi :
  xi < String.length w -> (forall w', In w' ys -> yi < String.length w') ->
  exists t, any_agree w xi ys yi = Ok t.
Proof.
  intros Li Lj. induction ys as [|y ys IH]; simpl; [eauto|].
  destruct (get_in_range _ _ Li) as [a Ga].
  destruct (get_in_range y yi) as [b Gb]; [apply Lj; left; reflexivity|].
  unfold char_at. rewrite Ga. simpl. rewrite Gb. simpl.
  destruct (Ascii.eqb a b); [eauto|]. apply IH. intros w' I. apply Lj. right. exact I.
Qed.

Lemma filter_res_total {A} (f : A -> res bool) l :
  (forall a, In a l -> exists b, f a = Ok b) -> exists r, filter_res f l = Ok r.
Proof.
  induction l as [|a l IH]; simpl; intros H; [eauto|].
  destruct (H a (or_introl eq_refl)) as [b ->]. simpl.
  destruct IH as [r ->]; [intros a' I; apply H; right; exact I|]. simpl. eauto.
Qed.

Lemma revise_returns x y D :
  symmetric_overlaps = true -> offsets_in_range = true ->
  keys D = variables cw -> node_consistent D ->
  In x (variables cw) -> In y (neighbors x) ->
  exists b D', revise x y D = (Ok b, D').
Proof.
  intros Sym Rng HK NC Vx Ny.
  destruct (neighbour_overlap Sym x y Vx Ny) as (xi & yi & Ho & _).
  apply In_neighbors in Ny. destruct Ny as (Vy & N & _).
  destruct (in_range_spec Rng x y xi yi Vx Vy ltac:(congruence) Ho) as [Li Lj].
  assert (Kx : In x (keys D)) by (rewrite HK; exact Vx).
  assert (Ky : In y (keys D)) by (rewrite HK; exact Vy).
  apply lookup_Some_keys in Kx, Ky. destruct Kx as [domx Hx], Ky as [domy Hy].
  destruct (filter_res_total (has_partner D y xi yi) domx) as [kept Hk].
  { intros w Hw. unfold has_partner, domain_of. rewrite Hy. simpl.
    apply any_agree_total.
    - rewrite (NC x domx w Hx Hw). exact Li.
    - intros w' Hw'. rewrite (NC y domy w' Hy Hw'). exact Lj. }
  unfold revise, bind, lift, overlap_of, domain_of, put_domain, ret.
  rewrite Ho, Hx, Hk.
  destruct (negb (set_eqb (word_set kept) domx)); eauto.
Qed.

Lemma total_size_update D x domx s :
  lookup x D = Some domx ->
  total_size (update D x s) + List.length domx = total_size D + List.length s.
Proof.
  unfold total_size. induction D as [|[k d] D IH]; simpl; [discriminate|].
  destruct (variable_eq_dec x k) as [->|N]; simpl; intros H.
  - inversion H; subst. lia.
  - specialize (IH H). lia.
Qed.

Lemma revise_true_smaller x y D D' :
  revise x y D = (Ok true, D') -> total_size D' < total_size D.
Proof.
  intros E. apply revise_inv in E.
  destruct E as (xi & yi & domx & _ & Hx & _ & Hb & ->).
  pose proof (total_size_update D x domx
                (word_set (word_set (filter (kept_by D y xi yi) domx))) Hx) as T.
  rewrite !length_word_set in T.
  symmetry in Hb. apply negb_true_iff, Nat.eqb_neq in Hb.
  pose proof (filter_length_le (kept_by D y xi yi) domx). lia.
Qed.

Lemma ac3_loop_returns fuel :
  symmetric_overlaps = true -> offsets_in_range = true ->
  forall arcs D,
    keys D = variables cw -> node_consistent D -> neighbour_arcs arcs ->
    total_size D * List.length (variables cw) + List.length arcs < fuel ->
    exists b D', ac3_loop fuel arcs D = (Ok b, D').
Proof.
  intros Sym Rng. induction fuel as [|fuel IH]; intros arcs D HK NC NA Hf; [lia|].
  destruct arcs as [|[x y] arcs]; [simpl; unfold ret; eauto|].
  rewrite ac3_loop_step. simpl.
  destruct (NA x y (or_introl eq_refl)) as [Vx Ny].
  destruct (revise_returns x y D Sym Rng HK NC Vx Ny) as (b & D1 & ER). rewrite ER.
  pose proof (revise_shrinks x y D) as SH. rewrite ER in SH. simpl in SH.
  assert (HK1 : keys D1 = variables cw) by (destruct SH; congruence).
  assert (NC1 : node_consistent D1) by (apply (node_consistent_shrinks D D1 SH NC)).
  destruct b.
  - assert (Kx : In x (keys D1)) by (rewrite HK1; exact Vx).
    apply lookup_Some_keys in Kx. destruct Kx as [dom ->].
    destruct (List.length dom =? 0); [eauto|].
    apply IH; auto.
    + intros u v I. apply in_app_or in I. destruct I as [I|I]; [apply NA; right; exact I|].
      apply in_map_iff in I. destruct I as (n & En & I).
      assert (u = n /\ v = x) as [-> ->] by (inversion En; auto).
      apply filter_In in I. destruct I as [I _].
      split; [apply In_neighbors in I; tauto | apply (neighbour_sym Sym x n Vx I)].
    + apply revise_true_smaller in ER.
      rewrite length_app, length_map.
      pose proof (filter_length_le (fun item => negb (var_eqb item y)) (neighbors x)).
      pose proof (length_neighbors x). simpl in Hf.
      assert (total_size D1 * List.length (variables cw) + List.length (variables cw)
              <= total_size D * List.length (variables cw)); [|lia].
      replace (total_size D1 * List.length (variables cw) + List.length (variables cw))
        with (S (total_size D1) * List.length (variables cw)) by (simpl; lia).
      apply Nat.mul_le_mono_r. lia.
  - apply IH; auto.
    + intros u v I. apply NA. right. exact I.
    + apply revise_inv in ER. destruct ER as (? & ? & ? & _ & _ & _ & _ & ->).
      simpl in Hf. lia.
Qed.

Lemma ac3_returns D :
  symmetric_overlaps = true -> offsets_in_range = true ->
  keys D = variables cw -> node_consistent D ->
  exists b D', ac3 None D = (Ok b, D') /\ shrinks D D'.
Proof.
  intros Sym Rng HK NC. unfold ac3.
  destruct (ac3_loop_returns (ac3_fuel (all_arcs D) D) Sym Rng (all_arcs D) D HK NC)
    as (b & D' & E).
  - intros x y I. apply In_all_arcs in I. rewrite HK in I. exact I.
  - unfold ac3_fuel. lia.
  - exists b, D'. split; [exact E|].
    pose proof (ac3_loop_shrinks (ac3_fuel (all_arcs D) D) (all_arcs D) D) as S.
    rewrite E in S. exact S.
Qed.

(** ** The search *)

Lemma update_update {V} (d : list (variable * V)) k v v' :
  update (update d k v) k v' = update d k v'.
Proof.
  induction d as [|[k0 v0] d IH]; simpl.
  - destruct (variable_eq_dec k k); congruence.
  - destruct (variable_eq_dec k k0) as [E|N]; simpl.
    + destruct (variable_eq_dec k k); congruence.
    + destruct (variable_eq_dec k k0); [contradiction | rewrite IH; reflexivity].
Qed.

Lemma NoDup_keys_update (a : assignment) var value :
  NoDup (keys a) -> NoDup (keys (update a var value)).
Proof.
  intros ND. destruct (in_dec variable_eq_dec var (keys a)) as [I|N].
  - rewrite keys_update_present by exact I. exact ND.
  - rewrite keys_update_absent by exact N.
    apply NoDup_rev in ND. rewrite <- (rev_involutive (keys a ++ [var])).
    apply NoDup_rev. rewrite rev_app_distr. simpl. constructor; [|exact ND].
    rewrite <- in_rev. exact N.
Qed.

Lemma incl_keys_update (a : assignment) var value l :
  incl (keys a) l -> In var l -> incl (keys (update a var value)) l.
Proof.
  intros Inc Hv. destruct (in_dec variable_eq_dec var (keys a)) as [I|N].
  - rewrite keys_update_present by exact I. exact Inc.
  - rewrite keys_update_absent by exact N. intros v Hx.
    apply in_app_or in Hx. destruct Hx as [Hx|[<-|[]]]; auto.
Qed.

Lemma mem_update (a : assignment) var value v :
  mem v (update a var value) = var_eqb v var || mem v a.
Proof.
  unfold mem, var_eqb. destruct (variable_eq_dec v var) as [->|N].
  - rewrite lookup_update_same. reflexivity.
  - rewrite lookup_update_other by congruence. reflexivity.
Qed.

Lemma filter_length_lt {A} (f g : A -> bool) l x :
  (forall y, g y = true -> f y = true) ->
  In x l -> f x = true -> g x = false ->
  List.length (filter g l) < List.length (filter f l).
Proof.
  intros Hfg. induction l as [|y l IH]; simpl; [tauto|].
  assert (Hle : List.length (filter g l) <= List.length (filter f l)).
  { clear IH. induction l as [|z l IHl]; simpl; [lia|].
    destruct (g z) eqn:Gz; [rewrite (Hfg z Gz); simpl; lia|].
    destruct (f z); simpl; lia. }
  intros [->|I] Fx Gx.
  - rewrite Fx, Gx. simpl. lia.
  - specialize (IH I Fx Gx). destruct (g y) eqn:Gy; [rewrite (Hfg y Gy); simpl; lia|].
    destruct (f y); simpl; lia.
Qed.

Lemma remaining_update D (a : assignment) var value :
  In var (keys D) -> mem var a = false ->
  remaining D (update a var value) < remaining D a.
Proof.
  intros K M. unfold remaining. apply filter_length_lt with (x := var).
  - intros v. rewrite mem_update, negb_orb. intros H.
    apply andb_true_iff in H. tauto.
  - exact K.
  - rewrite M. reflexivity.
  - rewrite mem_update. replace (var_eqb var var) with true; [reflexivity|].
    symmetry. apply var_eqb_true. reflexivity.
Qed.

Lemma consistent_spec_nil : consistent_spec [].
Proof.
  repeat split; intros x; intros; simpl in *; discriminate.
Qed.

Lemma backtrack_loop_ok D rec var values (a0 : assignment) :
  symmetric_overlaps = true -> offsets_in_range = true ->
  NoDup (keys a0) -> incl (keys a0) (variables cw) -> In var (variables cw) ->
  (forall value,
     consistent_spec (update a0 var value) ->
     exists j r, rec (update a0 var value) = (j, Ok r) /\ solved D r) ->
  forall a,
    (forall value, update a var value = update a0 var value) ->
    exists j r, backtrack_loop rec var values a = (j, Ok r) /\ solved D r.
Proof.
  intros Sym Rng ND Inc Vv Hrec.
  induction values as [|value values IH]; intros a Ha; simpl.
  - exists [], None. split; [reflexivity | exact I].
  - rewrite Ha.
    pose proof (NoDup_keys_update a0 var value ND) as ND'.
    pose proof (incl_keys_update a0 var value _ Inc Vv) as Inc'.
    destruct (consistent_total (update a0 var value) Sym Rng ND' Inc') as [b Eb].
    rewrite Eb. destruct b.
    + apply (consistent_true _ Sym ND' Inc') in Eb.
      destruct (Hrec value Eb) as (j1 & r1 & -> & S1).
      destruct r1 as [a'|].
      * exists (Try var value :: j1), (Some a'). split; [reflexivity | exact S1].
      * destruct (IH (update a0 var value)) as (j2 & r2 & E2 & S2).
        { intros value'. apply update_update. }
        rewrite E2. exists (Try var value :: j1 ++ j2), r2. split; [reflexivity | exact S2].
    + destruct (IH a Ha) as (j2 & r2 & E2 & S2). rewrite E2.
      exists (Try var value :: j2), r2. split; [reflexivity | exact S2].
Qed.

Lemma backtrack_ok D fuel :
  symmetric_overlaps = true -> offsets_in_range = true ->
  keys D = variables cw ->
  forall a : assignment,
    NoDup (keys a) -> incl (keys a) (variables cw) -> consistent_spec a ->
    remaining D a < fuel ->
    exists j r, backtrack fuel D a = (j, Ok r) /\ solved D r.
Proof.
  intros Sym Rng HK. induction fuel as [|fuel IH]; intros a ND Inc CS Hf; [lia|].
  simpl. destruct (assignment_complete D a) eqn:AC.
  - exists [Call a], (Some a). split; [reflexivity|].
    split; [apply assignment_complete_true, AC | exact CS].
  - destruct (select_incomplete D a AC) as (var & dom & -> & Hin & M & _).
    assert (Kv : In var (keys D)).
    { change var with (fst (var, dom)). apply in_map, Hin. }
    destruct (proj2 (lookup_Some_keys D var) Kv) as [values Hv].
    unfold domain_of. rewrite Hv.
    destruct (backtrack_loop_ok D (backtrack fuel D) var values a Sym Rng ND Inc)
      with (a := a) as (j & r & E & S).
    + rewrite <- HK. exact Kv.
    + intros value CS'. apply IH.
      * apply NoDup_keys_update, ND.
      * apply incl_keys_update; [exact Inc | rewrite <- HK; exact Kv].
      * exact CS'.
      * pose proof (remaining_update D a var value Kv M). lia.
    + reflexivity.
    + rewrite E. exists (Call a :: j), r. split; [reflexivity | exact S].
Qed.

(** C1.  On the store of a puzzle whose overlaps are symmetric and lie inside
    their slots [solve] returns, and what it
    returns is the no-solution signal or an assignment that gives every slot
    of the store a word and is consistent: the words are pairwise distinct,
    each has the length of its slot, and overlapping slots agree at their
    offsets.  A partial assignment is never returned. *)
Theorem solve_complete_or_none (D : store) :
  symmetric_overlaps = true ->
  offsets_in_range = true ->
  keys D = variables cw ->
  exists j r D',
    solve D = ((j, Ok r), D') /\
    match r with
    | None => True
    | Some a => complete D a /\ consistent_spec a
    end.
Proof.
  intros Sym Rng HK. unfold solve, bind.
  pose proof (enforce_shrinks D) as S1.
  pose proof (enforce_node_consistent D) as NC1.
  destruct (enforce_node_consistency D) as [u D1] eqn:E1.
  assert (u = Ok tt) as -> by (inversion E1; reflexivity).
  simpl in S1, NC1.
  assert (HK1 : keys D1 = variables cw) by (destruct S1; congruence).
  destruct (ac3_returns D1 Sym Rng HK1 NC1) as (b & D2 & -> & S2).
  assert (HK2 : keys D2 = variables cw) by (destruct S2; congruence).
  destruct (backtrack_ok D2 (S (List.length D2)) Sym Rng HK2 [])
    as (j & r & E & S).
  - constructor.
  - intros v [].
  - apply consistent_spec_nil.
  - unfold remaining, keys. pose proof (filter_length_le (fun v => negb (mem v (@nil (variable * word)))) (map fst D2)).
    rewrite length_map in H. lia.
  - exists j, r, D2. split; [rewrite E; reflexivity|].
    destruct r as [a|]; [|exact I]. destruct S as [C CS]. split; [|exact CS].
    intros v Hv. apply C. unfold keys in *. rewrite HK2, <- HK. exact Hv.
Qed.

(** ** What [solve] does with the answer of [ac3] *)

Lemma ac3_loop_false fuel :
  forall arcs D D', ac3_loop fuel arcs D = (Ok false, D') ->
                    exists x, lookup x D' = Some [].
Proof.
  induction fuel as [|fuel IH]; intros arcs D D' E; [discriminate|].
  destruct arcs as [|nextArc arcs]; [discriminate|].
  rewrite ac3_loop_step in E.
  destruct (revise (fst nextArc) (snd nextArc) D) as [[[|]|e] D1]; [| |discriminate].
  - destruct (lookup (fst nextArc) D1) as [dom|] eqn:Hx; [|discriminate].
    destruct (List.length dom =? 0) eqn:L; [|apply IH in E; exact E].
    inversion E; subst D1. apply Nat.eqb_eq in L. destruct dom; [|discriminate].
    exists (fst nextArc). exact Hx.
  - apply IH in E. exact E.
Qed.

Lemma backtrack_empty_domain D fuel x :
  NoDup (keys D) -> lookup x D = Some [] ->
  backtrack (S fuel) D [] = ([Call []], Ok None).
Proof.
  intros ND Hx. simpl.
  assert (AC : assignment_complete D [] = false).
  { destruct (assignment_complete D []) eqn:AC; [|reflexivity].
    apply assignment_complete_true in AC. destruct (AC x) as [w Hw]; [|discriminate].
    apply lookup_Some_keys. eauto. }
  rewrite AC.
  destruct (select_incomplete D [] AC) as (var & dom & -> & Hin & _ & Hmin & _).
  specialize (Hmin x [] (lookup_In _ _ _ Hx) eq_refl). simpl in Hmin.
  destruct dom; [|simpl in Hmin; lia].
  unfold domain_of. rewrite (In_lookup D var [] ND Hin). reflexivity.
Qed.

(** C2 (as the code has it).  When [ac3] returns false, [solve] still enters
    the search, once: the slot chosen has an empty domain, no word is tried,
    and [solve] reports no solution. *)
Theorem solve_after_failed_ac3 (D D' : store) :
  no_repeat (variables cw) = true ->
  keys D = variables cw ->
  ac3 None (snd (enforce_node_consistency D)) = (Ok false, D') ->
  solve D = (([Call []], Ok None), D').
Proof.
  intros NR HK E. unfold solve, bind.
  pose proof (enforce_shrinks D) as S1.
  destruct (enforce_node_consistency D) as [u D1] eqn:E1.
  assert (u = Ok tt) as -> by (inversion E1; reflexivity).
  simpl in S1, E. rewrite E.
  pose proof (ac3_loop_shrinks (ac3_fuel (all_arcs D1) D1) (all_arcs D1) D1) as S2.
  unfold ac3 in E. rewrite E in S2. simpl in S2.
  apply ac3_loop_false in E. destruct E as [x Hx].
  rewrite (backtrack_empty_domain D' (List.length D') x); [reflexivity | | exact Hx].
  destruct S1 as [K1 _], S2 as [K2 _]. rewrite K2, K1, HK.
  apply no_repeat_NoDup, NR.
Qed.

(** ** The order in which the search tries the words of a slot *)








(** ** The fuel is enough, whatever the store *)

Lemma any_agree_exn w xi ys yi e :
  any_agree w xi ys yi = Raise e -> e <> OutOfFuel.
Proof.
  induction ys as [|y ys IH]; simpl; [discriminate|].
  unfold char_at. destruct (String.get xi w); simpl; [|intros H; inversion H; discriminate].
  destruct (String.get yi y); simpl; [|intros H; inversion H; discriminate].
  destruct (Ascii.eqb a a0); [discriminate | exact IH].
Qed.

Lemma has_partner_exn D y xi yi w e :
  has_partner D y xi yi w = Raise e -> e <> OutOfFuel.
Proof.
  unfold has_partner, domain_of.
  destruct (lookup y D); simpl; [apply any_agree_exn | intros H; inversion H; discriminate].
Qed.

Lemma filter_res_exn {A} (f : A -> res bool) l e :
  (forall a e', f a = Raise e' -> e' <> OutOfFuel) ->
  filter_res f l = Raise e -> e <> OutOfFuel.
Proof.
  intros Hf. induction l as [|a l IH]; simpl; [discriminate|].
  destruct (f a) as [b|e'] eqn:Fa; simpl.
  - destruct (filter_res f l); simpl; [discriminate | exact IH].
  - intros H. inversion H; subst. apply (Hf a e Fa).
Qed.

Lemma revise_exn x y D e D' :
  revise x y D = (Raise e, D') -> e <> OutOfFuel.
Proof.
  unfold revise, bind, lift, overlap_of, domain_of, put_domain, ret.
  destruct (overlaps cw x y) as [[xi yi]|]; [|intros H; inversion H; discriminate].
  destruct (lookup x D) as [domx|]; [|intros H; inversion H; discriminate].
  destruct (filter_res (has_partner D y xi yi) domx) as [kept|e'] eqn:Hf.
  - destruct (negb (set_eqb (word_set kept) domx)); discriminate.
  - intros H. assert (e' = e) as -> by (inversion H; reflexivity).
    apply (filter_res_exn _ _ _ (has_partner_exn D y xi yi) Hf).
Qed.

Lemma ac3_loop_fuel fuel :
  forall arcs D,
    total_size D * List.length (variables cw) + List.length arcs < fuel ->
    fst (ac3_loop fuel arcs D) <> Raise OutOfFuel.
Proof.
  induction fuel as [|fuel IH]; intros arcs D Hf; [lia|].
  destruct arcs as [|[x y] arcs]; [discriminate|].
  rewrite ac3_loop_step. simpl.
  destruct (revise x y D) as [[[|]|e] D1] eqn:ER.
  - destruct (lookup x D1) as [dom|]; [|discriminate].
    destruct (List.length dom =? 0); [discriminate|].
    apply IH. apply revise_true_smaller in ER.
    rewrite length_app, length_map.
    pose proof (filter_length_le (fun item => negb (var_eqb item y)) (neighbors x)).
    pose proof (length_neighbors x). simpl in Hf.
    assert (S (total_size D1) * List.length (variables cw)
            <= total_size D * List.length (variables cw))
      by (apply Nat.mul_le_mono_r; lia).
    simpl in H1. lia.
  - apply IH. apply revise_inv in ER. destruct ER as (? & ? & ? & _ & _ & _ & _ & ->).
    simpl in Hf. lia.
  - simpl. intros H. apply (revise_exn _ _ _ _ _ ER). congruence.
Qed.

Lemma ac3_never_out_of_fuel arcs D : fst (ac3 arcs D) <> Raise OutOfFuel.
Proof.
  unfold ac3. apply ac3_loop_fuel. unfold ac3_fuel. lia.
Qed.

Lemma check_arcs_exn a arcs e : check_arcs a arcs = Raise e -> e <> OutOfFuel.
Proof.
  induction arcs as [|[x y] arcs IH]; simpl; [discriminate|].
  unfold overlap_of, value_of, char_at.
  destruct (overlaps cw x y) as [p|]; simpl; [|intros H; inversion H; discriminate].
  destruct (lookup x a) as [wx|]; simpl; [|intros H; inversion H; discriminate].
  destruct (String.get (fst p) wx); simpl; [|intros H; inversion H; discriminate].
  destruct (lookup y a) as [wy|]; simpl; [|intros H; inversion H; discriminate].
  destruct (String.get (snd p) wy); simpl; [|intros H; inversion H; discriminate].
  destruct (negb (Ascii.eqb a0 a1)); [discriminate | exact IH].
Qed.

Lemma consistent_exn a e : consistent a = Raise e -> e <> OutOfFuel.
Proof.
  unfold consistent. destruct (duplicate_word a); [discriminate|].
  destruct (existsb (fun p => negb (var_length (fst p) =? String.length (snd p))) a);
    [discriminate | apply check_arcs_exn].
Qed.

Lemma backtrack_loop_fuel rec var values (a0 : assignment) :
  (forall value, snd (rec (update a0 var value)) <> Raise OutOfFuel) ->
  forall a,
    (forall value, update a var value = update a0 var value) ->
    snd (backtrack_loop rec var values a) <> Raise OutOfFuel.
Proof.
  intros Hrec. induction values as [|value values IH]; intros a Ha; simpl; [discriminate|].
  rewrite Ha. destruct (consistent (update a0 var value)) as [[|]|e] eqn:Ec.
  - specialize (Hrec value). destruct (rec (update a0 var value)) as [j1 result].
    destruct result as [[a'|]|e]; simpl in *; try discriminate; try exact Hrec.
    specialize (IH (update a0 var value) (fun value' => update_update a0 var value value')).
    destruct (backtrack_loop rec var values (update a0 var value)). exact IH.
  - specialize (IH a Ha). destruct (backtrack_loop rec var values a). exact IH.
  - simpl. intros H. apply (consistent_exn _ _ Ec). congruence.
Qed.

Lemma backtrack_fuel D fuel :
  forall a, remaining D a < fuel -> snd (backtrack fuel D a) <> Raise OutOfFuel.
Proof.
  induction fuel as [|fuel IH]; intros a Hf; [lia|].
  simpl. destruct (assignment_complete D a) eqn:AC; [discriminate|].
  destruct (select_incomplete D a AC) as (var & dom & -> & Hin & M & _).
  assert (Kv : In var (keys D)).
  { change var with (fst (var, dom)). apply in_map, Hin. }
  unfold domain_of. destruct (lookup var D) as [values|]; [|discriminate].
  assert (HL : snd (backtrack_loop (backtrack fuel D) var values a) <> Raise OutOfFuel).
  { apply (backtrack_loop_fuel (backtrack fuel D) var values a); [|reflexivity].
    intros value. apply IH.
    pose proof (remaining_update D a var value Kv M). lia. }
  destruct (backtrack_loop (backtrack fuel D) var values a) as [j r]. exact HL.
Qed.

Lemma solve_never_out_of_fuel D : snd (fst (solve D)) <> Raise OutOfFuel.
Proof.
  unfold solve, bind.
  destruct (enforce_node_consistency D) as [u D1] eqn:E1.
  assert (u = Ok tt) as -> by (inversion E1; reflexivity).
  pose proof (ac3_never_out_of_fuel None D1) as HA.
  destruct (ac3 None D1) as [[b|e] D2]; [|simpl in *; congruence].
  cbv beta iota. unfold fst at 1.
  apply backtrack_fuel. unfold remaining, keys.
  pose proof (filter_length_le (fun v => negb (mem v (@nil (variable * word))))
                               (map fst D2)) as H.
  rewrite length_map in H. lia.
Qed.

(** ** More about the consistency engine *)

Lemma lookup_init x :
  In x (variables cw) -> lookup x init = Some (word_set (words cw)).
Proof.
  unfold init. induction (variables cw) as [|v vs IH]; simpl; [tauto|].
  intros [->|I].
  - destruct (variable_eq_dec x x); congruence.
  - destruct (variable_eq_dec x v); [reflexivity | auto].
Qed.

(** X1.  After [__init__] and [enforce_node_consistency] the domain of every
    slot of the puzzle holds exactly the words of the word list that have the
    length of the slot. *)
Theorem fresh_domains_after_node_consistency (x : variable) :
  In x (variables cw) ->
  exists dom,
    lookup x (snd (enforce_node_consistency init)) = Some dom /\
    forall w, In w dom <-> In w (words cw) /\ String.length w = var_length x.
Proof.
  intros Hx. rewrite lookup_enforce, (lookup_init x Hx). simpl.
  eexists. split; [reflexivity|]. intros w.
  rewrite In_word_set, filter_In, In_word_set, Nat.eqb_eq. tauto.
Qed.

Lemma filter_shorter {A} (f : A -> bool) l :
  List.length (filter f l) <> List.length l -> exists a, In a l /\ f a = false.
Proof.
  induction l as [|a l IH]; simpl; [congruence|].
  destruct (f a) eqn:E; simpl; intros H.
  - destruct IH as (b & I & Fb); [congruence|]. exists b. auto.
  - exists a. auto.
Qed.

Lemma kept_by_iff_supported D x y xi yi domx w :
  overlaps cw x y = Some (xi, yi) ->
  (forall w, In w domx -> exists t, has_partner D y xi yi w = Ok t) ->
  In w domx ->
  (kept_by D y xi yi w = true <-> supported D x y w).
Proof.
  intros Ho Hall Hw. split.
  - apply kept_by_supported, Ho.
  - destruct (Hall w Hw) as [t Ht]. apply (supported_kept_by D x y xi yi w t Ho Ht).
Qed.

(** X2.  When [revise x y] returns, the domain of x holds exactly the words
    it held that have a partner in the domain of y, the other domains are as
    they were, and the value returned is true exactly when a word was
    removed. *)
Theorem revise_removes_the_unsupported (x y : variable) (D D' : store) (b : bool) :
  revise x y D = (Ok b, D') ->
  exists domx domx',
    lookup x D = Some domx /\ lookup x D' = Some domx' /\
    (forall w, In w domx' <-> In w domx /\ supported D x y w) /\
    (forall z, z <> x -> lookup z D' = lookup z D) /\
    (b = true <-> exists w, In w domx /\ ~ supported D x y w).
Proof.
  intros E. apply revise_inv in E.
  destruct E as (xi & yi & domx & Ho & Hx & Hall & Hb & ->).
  pose proof (kept_by_iff_supported D x y xi yi domx) as KS.
  destruct b.
  - exists domx, (word_set (word_set (filter (kept_by D y xi yi) domx))).
    split; [exact Hx|]. split; [apply lookup_update_same|]. split; [|split].
    + intros w. rewrite !In_word_set, filter_In. split.
      * intros [I K]. split; [exact I | apply (KS w Ho Hall I), K].
      * intros [I S]. split; [exact I | apply (KS w Ho Hall I), S].
    + intros z N. apply lookup_update_other. congruence.
    + split; [intros _ | reflexivity].
      symmetry in Hb. apply negb_true_iff, Nat.eqb_neq in Hb.
      destruct (filter_shorter _ _ Hb) as (w & I & K). exists w. split; [exact I|].
      intros S. apply (KS w Ho Hall I) in S. congruence.
  - exists domx, domx. split; [exact Hx|]. split; [exact Hx|]. split; [|split].
    + symmetry in Hb. apply negb_false_iff, Nat.eqb_eq in Hb.
      intros w. split; [|tauto]. intros I. split; [exact I|].
      apply (KS w Ho Hall I). apply (filter_all _ _ Hb w I).
    + reflexivity.
    + split; [discriminate|]. intros (w & I & NS). exfalso. apply NS.
      symmetry in Hb. apply negb_false_iff, Nat.eqb_eq in Hb.
      apply (KS w Ho Hall I). apply (filter_all _ _ Hb w I).
Qed.

Lemma filter_res_all {A} (f : A -> res bool) l :
  (forall a, In a l -> f a = Ok true) -> filter_res f l = Ok l.
Proof.
  induction l as [|a l IH]; simpl; intros H; [reflexivity|].
  rewrite (H a (or_introl eq_refl)). simpl. rewrite IH; [reflexivity|].
  intros b I. apply H. right. exact I.
Qed.

Lemma set_eqb_word_set l : set_eqb (word_set l) l = true.
Proof.
  unfold set_eqb. rewrite length_word_set, Nat.eqb_refl. simpl.
  apply forallb_forall. intros w Hw. apply (proj1 (In_word_set l w)) in Hw.
  apply existsb_exists. exists w. split; [exact Hw | apply String.eqb_refl].
Qed.

Lemma has_partner_same_domain D D' y xi yi w :
  lookup y D' = lookup y D -> has_partner D' y xi yi w = has_partner D y xi yi w.
Proof. unfold has_partner, domain_of. intros ->. reflexivity. Qed.

(** X3.  A second [revise x y], right after one that returned, finds nothing
    to remove: it returns false and leaves the store as it is. *)
Theorem revise_twice (x y : variable) (D D' : store) (b : bool) :
  x <> y ->
  revise x y D = (Ok b, D') ->
  revise x y D' = (Ok false, D').
Proof.
  intros N E. apply revise_inv in E.
  destruct E as (xi & yi & domx & Ho & Hx & Hall & Hb & ->).
  set (kept := filter (kept_by D y xi yi) domx) in *.
  assert (Hy : forall D1 s, D1 = update D x s -> lookup y D1 = lookup y D).
  { intros D1 s ->. apply lookup_update_other. exact N. }
  assert (Run : forall D1 dom,
             lookup y D1 = lookup y D -> lookup x D1 = Some dom ->
             (forall w, In w dom -> kept_by D y xi yi w = true) ->
             revise x y D1 = (Ok false, D1)).
  { intros D1 dom Ey Ex Hk.
    unfold revise, bind, lift, overlap_of, domain_of, put_domain, ret.
    rewrite Ho, Ex. rewrite (filter_res_all (has_partner D1 y xi yi) dom).
    - rewrite set_eqb_word_set. reflexivity.
    - intros w Hw. rewrite (has_partner_same_domain D D1 y xi yi w Ey).
      specialize (Hk w Hw). unfold kept_by in Hk.
      destruct (has_partner D y xi yi w) as [[|]|]; congruence. }
  destruct b.
  - apply (Run _ (word_set (word_set kept))).
    + apply lookup_update_other. exact N.
    + apply lookup_update_same.
    + intros w Hw. apply In_word_set, In_word_set, filter_In in Hw. tauto.
  - apply (Run D domx eq_refl Hx).
    symmetry in Hb. apply negb_false_iff, Nat.eqb_eq in Hb.
    apply (filter_all _ _ Hb).
Qed.

(** X4.  The loop of [ac3] ends: whatever the arcs and the store, it makes at
    most (words in all domains) x (slots) + (arcs given) revisions, so the
    fuel [ac3] runs on is never used up. *)
Theorem ac3_terminates (arcs : option (list arc)) (D : store) :
  (forall fuel l,
     total_size D * List.length (variables cw) + List.length l < fuel ->
     fst (ac3_loop fuel l D) <> Raise OutOfFuel) /\
  fst (ac3 arcs D) <> Raise OutOfFuel.
Proof.
  split.
  - intros fuel l H. apply ac3_loop_fuel, H.
  - apply ac3_never_out_of_fuel.
Qed.

(** X5.  [ac3] returns false only with an empty domain in the store. *)
Theorem ac3_false_empty_domain (arcs : option (list arc)) (D D' : store) :
  ac3 arcs D = (Ok false, D') -> exists x, lookup x D' = Some [].
Proof.
  unfold ac3. apply ac3_loop_false.
Qed.

Lemma ac3_loop_keeps_nonempty fuel :
  forall arcs D D',
    ac3_loop fuel arcs D = (Ok true, D') ->
    forall x d, lookup x D = Some d -> d <> [] ->
                exists d', lookup x D' = Some d' /\ d' <> [].
Proof.
  induction fuel as [|fuel IH]; intros arcs D D' E x d Hx Hd; [discriminate|].
  destruct arcs as [|[u v] arcs].
  - inversion E; subst. eauto.
  - rewrite ac3_loop_step in E. simpl in E.
    destruct (revise u v D) as [[[|]|e] D1] eqn:ER; [| |discriminate].
    + destruct (lookup u D1) as [dom|] eqn:Hu; [|discriminate].
      destruct (List.length dom =? 0) eqn:L; [discriminate|].
      apply Nat.eqb_neq in L.
      destruct (variable_eq_dec x u) as [->|N].
      * apply (IH _ _ _ E u dom Hu). intros ->. apply L. reflexivity.
      * apply (IH _ _ _ E x d); [|exact Hd].
        apply revise_inv in ER. destruct ER as (? & ? & ? & _ & _ & _ & _ & ->).
        rewrite lookup_update_other by congruence. exact Hx.
    + apply revise_inv in ER. destruct ER as (? & ? & ? & _ & _ & _ & _ & ->).
      apply (IH _ _ _ E x d Hx Hd).
Qed.

(** X6.  When [ac3] returns true, every domain that held a word before still
    holds one. *)
Theorem ac3_true_keeps_nonempty (arcs : option (list arc)) (D D' : store)
        (x : variable) (d : list word) :
  ac3 arcs D = (Ok true, D') ->
  lookup x D = Some d -> d <> [] ->
  exists d', lookup x D' = Some d' /\ d' <> [].
Proof.
  unfold ac3. intros E Hx Hd.
  apply (ac3_loop_keeps_nonempty _ _ _ _ E x d Hx Hd).
Qed.

Lemma revise_empty_domain x y D p :
  overlaps cw x y = Some p -> lookup x D = Some [] ->
  revise x y D = (Ok false, D).
Proof.
  intros Ho Hx. unfold revise, bind, lift, overlap_of, domain_of, put_domain, ret.
  rewrite Ho. destruct p as [xi yi]. rewrite Hx. simpl.
  rewrite set_eqb_word_set. reflexivity.
Qed.

Lemma ac3_loop_all_empty arcs :
  forall fuel D,
    (forall x y, In (x, y) arcs ->
                 (exists p, overlaps cw x y = Some p) /\ lookup x D = Some []) ->
    List.length arcs < fuel ->
    ac3_loop fuel arcs D = (Ok true, D).
Proof.
  induction arcs as [|[x y] arcs IH]; intros fuel D H Hf.
  - destruct fuel; [simpl in Hf; lia | reflexivity].
  - destruct fuel as [|fuel]; [lia|]. rewrite ac3_loop_step. simpl.
    destruct (H x y (or_introl eq_refl)) as [[p Ho] Hx].
    rewrite (revise_empty_domain x y D p Ho Hx).
    apply IH; [|simpl in Hf; lia]. intros u v I. apply H. right. exact I.
Qed.

(** X7.  On a store whose domains are all empty (an empty word list, say)
    [ac3] revises nothing and returns true, although a domain is empty. *)
Theorem ac3_true_on_empty_domains (D : store) :
  symmetric_overlaps = true ->
  keys D = variables cw ->
  (forall x d, lookup x D = Some d -> d = []) ->
  ac3 None D = (Ok true, D).
Proof.
  intros Sym HK HE. unfold ac3. apply ac3_loop_all_empty.
  - intros x y I. apply In_all_arcs in I. destruct I as [Kx Ny].
    assert (Vx : In x (variables cw)) by (rewrite <- HK; exact Kx).
    destruct (neighbour_overlap Sym x y Vx Ny) as (i & j & Ho & _).
    split; [eauto|]. apply lookup_Some_keys in Kx. destruct Kx as [d Hd].
    rewrite Hd. f_equal. apply (HE x d Hd).
  - unfold ac3_fuel. apply Nat.lt_succ_r, Nat.le_add_l.
Qed.

(** ** Propagation and search lose no solution *)

Lemma within_enforce D s :
  lengths_fit s -> within D s -> within (snd (enforce_node_consistency D)) s.
Proof.
  intros LF W v w Hs. destruct (W v w Hs) as (d & Hd & I).
  rewrite lookup_enforce, Hd. simpl. eexists. split; [reflexivity|].
  apply In_word_set, filter_In. split; [exact I|].
  apply Nat.eqb_eq, (LF v w Hs).
Qed.

Lemma revise_keeps_solution x y D r D' s :
  x <> y ->
  (exists wy, lookup y s = Some wy) ->
  overlaps_agree s -> within D s ->
  revise x y D = (r, D') -> within D' s.
Proof.
  intros N [wy Hy] OA W E. apply revise_inv in E.
  destruct r as [b|e]; [|subst; exact W].
  destruct E as (xi & yi & domx & Ho & Hx & Hall & Hb & ->).
  destruct b; [|exact W].
  intros v w Hs. destruct (variable_eq_dec x v) as [<-|Nv].
  - rewrite lookup_update_same. eexists. split; [reflexivity|].
    destruct (W x w Hs) as (d & Hd & I). rewrite Hx in Hd. inversion Hd; subst d.
    apply In_word_set, In_word_set, filter_In. split; [exact I|].
    destruct (Hall w I) as [t Ht].
    apply (supported_kept_by D x y xi yi w t Ho Ht).
    destruct (W y wy Hy) as (dy & Hdy & Iy).
    exists xi, yi, dy, wy. repeat split; auto.
    apply (OA x y w wy xi yi N Hs Hy Ho).
  - rewrite lookup_update_other by exact Nv. apply (W v w Hs).
Qed.

Lemma ac3_loop_keeps_solution fuel s :
  overlaps_agree s ->
  (forall y, In y (variables cw) -> exists wy, lookup y s = Some wy) ->
  forall arcs D r D',
    (forall x y, In (x, y) arcs ->
                 x <> y /\ In x (variables cw) /\ In y (variables cw)) ->
    within D s ->
    ac3_loop fuel arcs D = (r, D') -> within D' s.
Proof.
  intros OA HV. induction fuel as [|fuel IH]; intros arcs D r D' HA W E.
  - inversion E; subst. exact W.
  - destruct arcs as [|[x y] arcs]; [inversion E; subst; exact W|].
    rewrite ac3_loop_step in E. simpl in E.
    destruct (HA x y (or_introl eq_refl)) as (N & Vx & Vy).
    pose proof (revise_keeps_solution x y D) as HR.
    destruct (revise x y D) as [[[|]|e] D1] eqn:ER;
      specialize (HR _ _ s N (HV y Vy) OA W eq_refl).
    + destruct (lookup x D1) as [dom|]; [|inversion E; subst; exact HR].
      destruct (List.length dom =? 0); [inversion E; subst; exact HR|].
      apply (IH _ _ _ _) with (3 := E); [|exact HR].
      intros u v I. apply in_app_or in I. destruct I as [I|I]; [apply HA; right; exact I|].
      apply in_map_iff in I. destruct I as (n & En & I).
      assert (u = n /\ v = x) as [-> ->] by (inversion En; auto).
      apply filter_In in I. destruct I as [I _]. apply In_neighbors in I. tauto.
    + apply (IH _ _ _ _) with (3 := E); [|exact HR].
      intros u v I. apply HA. right. exact I.
    + inversion E; subst. exact HR.
Qed.

Lemma ac3_keeps_solution D D' r s :
  keys D = variables cw ->
  complete D s -> overlaps_agree s -> within D s ->
  ac3 None D = (r, D') ->
  within D' s /\ r <> Ok false.
Proof.
  intros HK C OA W E.
  assert (HV : forall y, In y (variables cw) -> exists wy, lookup y s = Some wy).
  { intros y Vy. apply C. rewrite HK. exact Vy. }
  pose proof (ac3_loop_shrinks (ac3_fuel (all_arcs D) D) (all_arcs D) D) as S.
  unfold ac3 in E. rewrite E in S. destruct S as [K _]. simpl in K.
  assert (W' : within D' s).
  { apply (ac3_loop_keeps_solution _ s OA HV _ _ _ _) with (3 := E); [|exact W].
    intros x y I. apply In_all_arcs in I. destruct I as [Kx Ny].
    apply In_neighbors in Ny. rewrite HK in Kx. split; [intros ->; tauto | tauto]. }
  split; [exact W'|]. intros ->.
  apply ac3_loop_false in E. destruct E as [x Hx].
  assert (Vx : In x (variables cw)).
  { rewrite <- HK, <- K. apply lookup_Some_keys. eauto. }
  destruct (HV x Vx) as [w Hw]. destruct (W' x w Hw) as (d & Hd & I).
  rewrite Hx in Hd. inversion Hd; subst d. destruct I.
Qed.

(** X8.  [ac3] removes no word of a solution: a complete, consistent
    assignment whose words are in the domains before is in the domains
    after, whatever [ac3] returns; and with such an assignment [ac3] does not
    return false. *)
Theorem ac3_keeps_solutions (D D' : store) (r : res bool) (s : assignment) :
  keys D = variables cw ->
  complete D s -> consistent_spec s -> within D s ->
  ac3 None D = (r, D') ->
  within D' s /\ r <> Ok false.
Proof.
  intros HK C (_ & _ & OA) W E.
  apply (ac3_keeps_solution D D' r s HK C OA W E).
Qed.

Lemma consistent_spec_sub (a s : assignment) :
  extends a s -> consistent_spec s -> consistent_spec a.
Proof.
  intros X (DW & LF & OA). split; [|split].
  - intros x y w N Hx Hy. apply (DW x y w N (X _ _ Hx) (X _ _ Hy)).
  - intros x w Hx. apply (LF x w (X _ _ Hx)).
  - intros x y wx wy i j N Hx Hy Ho. apply (OA x y wx wy i j N (X _ _ Hx) (X _ _ Hy) Ho).
Qed.

Lemma extends_update (a s : assignment) var value :
  extends a s -> lookup var s = Some value -> extends (update a var value) s.
Proof.
  intros X Hs v w Hv. destruct (variable_eq_dec var v) as [<-|N].
  - rewrite lookup_update_same in Hv. congruence.
  - rewrite lookup_update_other in Hv by exact N. apply X, Hv.
Qed.

Lemma backtrack_loop_finds rec var values (a0 s : assignment) sv :
  symmetric_overlaps = true -> offsets_in_range = true ->
  NoDup (keys a0) -> incl (keys a0) (variables cw) -> In var (variables cw) ->
  extends a0 s -> consistent_spec s -> lookup var s = Some sv ->
  (forall value,
     consistent_spec (update a0 var value) ->
     exists j r, rec (update a0 var value) = (j, Ok r)) ->
  (exists j a', rec (update a0 var sv) = (j, Ok (Some a'))) ->
  In sv values ->
  forall a,
    (forall value, update a var value = update a0 var value) ->
    exists j a', backtrack_loop rec var values a = (j, Ok (Some a')).
Proof.
  intros Sym Rng ND Inc Vv X CS Hsv Htot Hsol.
  induction values as [|value values IH]; intros Isv a Ha; [destruct Isv|].
  simpl. rewrite Ha.
  pose proof (NoDup_keys_update a0 var value ND) as ND'.
  pose proof (incl_keys_update a0 var value _ Inc Vv) as Inc'.
  destruct (consistent_total (update a0 var value) Sym Rng ND' Inc') as [b Eb].
  rewrite Eb.
  assert (Rest : (b = false \/ exists j, rec (update a0 var value) = (j, Ok None)) ->
                 In sv values).
  { intros Hcase. destruct Isv as [->|I]; [exfalso | exact I].
    destruct Hcase as [->|[j Ej]].
    - assert (CSv : consistent_spec (update a0 var sv)).
      { apply (consistent_spec_sub _ s); [apply extends_update; assumption | exact CS]. }
      apply (consistent_true _ Sym ND' Inc') in CSv. congruence.
    - destruct Hsol as (j' & a' & E'). congruence. }
  destruct b.
  - apply (consistent_true _ Sym ND' Inc') in Eb.
    destruct (Htot value Eb) as (j1 & r1 & E1). rewrite E1.
    destruct r1 as [a'|]; [eauto|].
    destruct (IH (Rest (or_intror (ex_intro _ j1 E1))) (update a0 var value))
      as (j2 & a2 & E2); [intros value'; apply update_update|].
    rewrite E2. eauto.
  - destruct (IH (Rest (or_introl eq_refl)) a Ha) as (j2 & a2 & E2).
    rewrite E2. eauto.
Qed.

Lemma backtrack_finds D fuel s :
  symmetric_overlaps = true -> offsets_in_range = true ->
  keys D = variables cw ->
  complete D s -> consistent_spec s -> within D s ->
  forall a : assignment,
    NoDup (keys a) -> incl (keys a) (variables cw) -> extends a s ->
    remaining D a < fuel ->
    exists j a', backtrack fuel D a = (j, Ok (Some a')).
Proof.
  intros Sym Rng HK C CS W. induction fuel as [|fuel IH]; intros a ND Inc X Hf; [lia|].
  simpl. destruct (assignment_complete D a) eqn:AC; [eauto|].
  destruct (select_incomplete D a AC) as (var & dom & -> & Hin & M & _).
  assert (Kv : In var (keys D)).
  { change var with (fst (var, dom)). apply in_map, Hin. }
  assert (Vv : In var (variables cw)) by (rewrite <- HK; exact Kv).
  destruct (C var Kv) as [sv Hsv].
  destruct (W var sv Hsv) as (values & Hv & Iv).
  unfold domain_of. rewrite Hv.
  assert (Smaller : forall value, remaining D (update a var value) < fuel).
  { intros value. pose proof (remaining_update D a var value Kv M). lia. }
  destruct (backtrack_loop_finds (backtrack fuel D) var values a s sv
              Sym Rng ND Inc Vv X CS Hsv) with (a := a) as (j & a' & E).
  - intros value CS'.
    destruct (backtrack_ok D fuel Sym Rng HK (update a var value)) as (j & r & E & _).
    + apply NoDup_keys_update, ND.
    + apply incl_keys_update; assumption.
    + exact CS'.
    + apply Smaller.
    + eauto.
  - apply IH.
    + apply NoDup_keys_update, ND.
    + apply incl_keys_update; assumption.
    + apply extends_update; assumption.
    + apply Smaller.
  - exact Iv.
  - reflexivity.
  - rewrite E. eauto.
Qed.

(** X9.  The search is complete: when some assignment gives every slot a
    word of its domain and is consistent, [solve] finds an assignment; it
    reports no solution only when there is none. *)
Theorem solve_finds_a_solution (D : store) (s : assignment) :
  symmetric_overlaps = true ->
  offsets_in_range = true ->
  keys D = variables cw ->
  complete D s -> consistent_spec s -> within D s ->
  exists j a D', solve D = ((j, Ok (Some a)), D').
Proof.
  intros Sym Rng HK C CS W. unfold solve, bind.
  pose proof (enforce_shrinks D) as S1.
  pose proof (enforce_node_consistent D) as NC1.
  pose proof (within_enforce D s (proj1 (proj2 CS)) W) as W1.
  destruct (enforce_node_consistency D) as [u D1] eqn:E1.
  assert (u = Ok tt) as -> by (inversion E1; reflexivity).
  simpl in S1, NC1, W1.
  assert (HK1 : keys D1 = variables cw) by (destruct S1; congruence).
  assert (C1 : complete D1 s) by (intros v Hv; apply C; destruct S1; congruence).
  destruct (ac3_returns D1 Sym Rng HK1 NC1) as (b & D2 & E2 & S2).
  destruct (ac3_keeps_solution D1 D2 (Ok b) s HK1 C1 (proj2 (proj2 CS)) W1 E2) as [W2 _].
  rewrite E2.
  assert (HK2 : keys D2 = variables cw) by (destruct S2; congruence).
  assert (C2 : complete D2 s) by (intros v Hv; apply C1; destruct S2; congruence).
  destruct (backtrack_finds D2 (S (List.length D2)) s Sym Rng HK2 C2 CS W2 [])
    as (j & a & E).
  - constructor.
  - intros v [].
  - intros v w Hv. discriminate.
  - unfold remaining, keys.
    pose proof (filter_length_le (fun v => negb (mem v (@nil (variable * word))))
                                 (map fst D2)) as H.
    rewrite length_map in H. lia.
  - exists j, a, D2. rewrite E. reflexivity.
Qed.

(** X10.  A slot with no word of its length in its domain makes [solve]
    report no solution: the search is entered once and tries no word. *)
Theorem solve_without_fitting_word (D : store) (x : variable) (d : list word) :
  symmetric_overlaps = true ->
  offsets_in_range = true ->
  no_repeat (variables cw) = true ->
  keys D = variables cw ->
  lookup x D = Some d ->
  (forall w, In w d -> String.length w <> var_length x) ->
  exists D', solve D = (([Call []], Ok None), D').
Proof.
  intros Sym Rng NR HK Hx Hd. unfold solve, bind.
  pose proof (enforce_shrinks D) as S1.
  pose proof (enforce_node_consistent D) as NC1.
  pose proof (lookup_enforce D x) as L1. rewrite Hx in L1. cbn [option_map] in L1.
  destruct (enforce_node_consistency D) as [u D1] eqn:E1.
  assert (u = Ok tt) as -> by (inversion E1; reflexivity).
  simpl in S1, NC1, L1.
  assert (HK1 : keys D1 = variables cw) by (destruct S1; congruence).
  destruct (ac3_returns D1 Sym Rng HK1 NC1) as (b & D2 & E2 & S2).
  rewrite E2. exists D2.
  assert (HK2 : keys D2 = variables cw) by (destruct S2; congruence).
  assert (Kx : In x (keys D2)).
  { rewrite HK2, <- HK. apply lookup_Some_keys. eauto. }
  apply lookup_Some_keys in Kx. destruct Kx as [d2 H2].
  assert (d2 = []) as ->.
  { destruct d2 as [|w d2]; [reflexivity|]. exfalso.
    destruct S2 as [_ S2]. destruct (S2 x _ H2) as (d1 & Hd1 & I1).
    rewrite L1 in Hd1. inversion Hd1; subst d1.
    specialize (I1 w (or_introl eq_refl)).
    apply In_word_set, filter_In in I1. destruct I1 as [I1 L].
    apply Nat.eqb_eq in L. apply (Hd w I1 L). }
  rewrite (backtrack_empty_domain D2 (List.length D2) x); [reflexivity | | exact H2].
  rewrite HK2. apply no_repeat_NoDup, NR.
Qed.

(** ** Where the words of a result come from *)

Lemma backtrack_loop_result D rec var values (a0 : assignment) :
  mem var a0 = false ->
  (forall w, In w values -> exists d, lookup var D = Some d /\ In w d) ->
  (forall value j a',
     rec (update a0 var value) = (j, Ok (Some a')) ->
     extends (update a0 var value) a' /\
     forall v w, lookup v a' = Some w ->
                 lookup v (update a0 var value) = Some w \/
                 exists d, lookup v D = Some d /\ In w d) ->
  forall a j a',
    (forall value, update a var value = update a0 var value) ->
    backtrack_loop rec var values a = (j, Ok (Some a')) ->
    extends a0 a' /\
    forall v w, lookup v a' = Some w ->
                lookup v a0 = Some w \/ exists d, lookup v D = Some d /\ In w d.
Proof.
  intros M. induction values as [|value values IH]; intros Hin Hrec a j a' Ha E;
    simpl in E; [discriminate|].
  assert (Hin' : forall w, In w values -> exists d, lookup var D = Some d /\ In w d).
  { intros w I. apply Hin. right. exact I. }
  rewrite Ha in E.
  destruct (consistent (update a0 var value)) as [[|]|e]; [| |discriminate].
  - destruct (rec (update a0 var value)) as [j1 result] eqn:ER.
    destruct result as [[a1|]|e].
    + inversion E; subst j a'. destruct (Hrec value j1 a1 ER) as [X F]. split.
      * intros v w Hv. apply X. rewrite lookup_update_other; [exact Hv|].
        intros ->. apply mem_false_keys in M. apply M. apply lookup_Some_keys. eauto.
      * intros v w Hv. destruct (F v w Hv) as [H|H]; [|right; exact H].
        destruct (variable_eq_dec var v) as [<-|N].
        -- rewrite lookup_update_same in H. inversion H; subst w.
           right. apply Hin. left. reflexivity.
        -- rewrite lookup_update_other in H by exact N. left. exact H.
    + destruct (backtrack_loop rec var values (update a0 var value)) as [j2 r2] eqn:E2.
      inversion E; subst j r2.
      apply (IH Hin' Hrec _ _ _ (fun value' => update_update a0 var value value') E2).
    + discriminate.
  - destruct (backtrack_loop rec var values a) as [j2 r2] eqn:E2.
    inversion E; subst j r2. apply (IH Hin' Hrec _ _ _ Ha E2).
Qed.

Lemma backtrack_result D fuel :
  forall a j a',
    backtrack fuel D a = (j, Ok (Some a')) ->
    extends a a' /\
    forall v w, lookup v a' = Some w ->
                lookup v a = Some w \/ exists d, lookup v D = Some d /\ In w d.
Proof.
  induction fuel as [|fuel IH]; intros a j a' E; simpl in E; [discriminate|].
  destruct (assignment_complete D a) eqn:AC.
  { inversion E; subst. split; [intros v w H; exact H | intros v w H; left; exact H]. }
  destruct (select_incomplete D a AC) as (var & dom & Es & _ & M & _).
  rewrite Es in E. unfold domain_of in E.
  destruct (lookup var D) as [values|] eqn:Hv; [|discriminate].
  destruct (backtrack_loop (backtrack fuel D) var values a) as [j' r'] eqn:EL.
  inversion E; subst j r'.
  apply (backtrack_loop_result D (backtrack fuel D) var values a M) with (4 := EL).
  - intros w I. eauto.
  - intros value j1 a1 E1. apply (IH _ _ _ E1).
  - reflexivity.
Qed.

(** X11.  [backtrack] keeps what the assignment it is given already assigns,
    and every word it adds is in the domain of its slot. *)
Theorem backtrack_extends_from_domains (D : store) (fuel : nat)
        (a a' : assignment) (j : journal) :
  backtrack fuel D a = (j, Ok (Some a')) ->
  extends a a' /\
  forall v w, lookup v a' = Some w ->
              lookup v a = Some w \/ exists d, lookup v D = Some d /\ In w d.
Proof.
  apply backtrack_result.
Qed.

(** X12.  Every word of an assignment returned by [solve] was in the domain
    of its slot when [solve] was called; from a fresh creator, it is a word
    of the word list. *)
Theorem solve_uses_domain_words (D D' : store) (j : journal) (a : assignment) :
  solve D = ((j, Ok (Some a)), D') ->
  forall v w, lookup v a = Some w -> exists d, lookup v D = Some d /\ In w d.
Proof.
  unfold solve, bind. intros E v w Hv.
  pose proof (enforce_shrinks D) as S1.
  destruct (enforce_node_consistency D) as [u D1] eqn:E1.
  assert (u = Ok tt) as -> by (inversion E1; reflexivity).
  simpl in S1.
  pose proof (ac3_loop_shrinks (ac3_fuel (all_arcs D1) D1) (all_arcs D1) D1) as S2.
  fold (ac3 None D1) in S2.
  destruct (ac3 None D1) as [[b|e] D2]; [|discriminate].
  simpl in S2.
  assert (Eb : backtrack (S (List.length D2)) D2 [] = (j, Ok (Some a)))
    by (inversion E; reflexivity).
  assert (D' = D2) as -> by (inversion E; reflexivity).
  destruct (backtrack_result D2 _ _ _ _ Eb) as [_ F].
  destruct (F v w Hv) as [H|(d2 & H2 & I2)]; [discriminate|].
  destruct (shrinks_trans _ _ _ S1 S2) as [_ S].
  destruct (S v d2 H2) as (d & Hd & I). exists d. split; [exact Hd | apply I, I2].
Qed.

(** ** More about the checks and the heuristics *)

(** X13.  On an assignment to slots of a puzzle whose overlaps are symmetric
    and lie inside their slots, [consistent] raises nothing: the length test
    comes before any letter is indexed. *)
Theorem consistent_never_raises (a : assignment) :
  symmetric_overlaps = true -> offsets_in_range = true ->
  NoDup (keys a) -> incl (keys a) (variables cw) ->
  exists b, consistent a = Ok b.
Proof.
  apply consistent_total.
Qed.

Lemma lookup_perm {V} (a a' : list (variable * V)) k :
  NoDup (keys a) -> Permutation a a' -> lookup k a = lookup k a'.
Proof.
  intros ND P.
  assert (ND' : NoDup (keys a')).
  { apply (Permutation_NoDup (Permutation_map fst P) ND). }
  destruct (lookup k a) as [v|] eqn:E.
  - symmetry. apply In_lookup; [exact ND'|].
    apply (Permutation_in _ P), lookup_In, E.
  - symmetry. apply lookup_None_keys. apply lookup_None_keys in E.
    intros I. apply E. apply (Permutation_in _ (Permutation_sym (Permutation_map fst P))), I.
Qed.

Lemma consistent_spec_perm (a a' : assignment) :
  NoDup (keys a) -> Permutation a a' -> consistent_spec a -> consistent_spec a'.
Proof.
  intros ND P (DW & LF & OA).
  assert (L : forall k, lookup k a' = lookup k a) by (intros k; symmetry; apply lookup_perm; assumption).
  split; [|split].
  - intros x y w N. rewrite !L. apply DW, N.
  - intros x w. rewrite L. apply LF.
  - intros x y wx wy i j N. rewrite !L. apply OA, N.
Qed.

(** X14.  The verdict of [consistent] does not depend on the order in which
    the assignment was filled. *)
Theorem consistent_order_independent (a a' : assignment) :
  symmetric_overlaps = true -> offsets_in_range = true ->
  NoDup (keys a) -> incl (keys a) (variables cw) ->
  Permutation a a' ->
  consistent a' = consistent a.
Proof.
  intros Sym Rng ND Inc P.
  assert (ND' : NoDup (keys a')).
  { apply (Permutation_NoDup (Permutation_map fst P) ND). }
  assert (Inc' : incl (keys a') (variables cw)).
  { intros v I. apply Inc.
    apply (Permutation_in _ (Permutation_sym (Permutation_map fst P))), I. }
  destruct (consistent_total a Sym Rng ND Inc) as [b Eb].
  destruct (consistent_total a' Sym Rng ND' Inc') as [b' Eb'].
  rewrite Eb, Eb'. f_equal.
  pose proof (consistent_true a Sym ND Inc) as T.
  pose proof (consistent_true a' Sym ND' Inc') as T'.
  destruct b, b'; try reflexivity; exfalso.
  - assert (consistent a' = Ok true); [|congruence].
    apply T', (consistent_spec_perm a a' ND P), T, Eb.
  - assert (consistent a = Ok true); [|congruence].
    apply T, (consistent_spec_perm a' a ND' (Permutation_sym P)), T', Eb'.
Qed.

Lemma sorted_by_constant {A} (key : A -> nat) (l : list A) n :
  (forall a, In a l -> key a = n) -> sorted_by key l = l.
Proof.
  induction l as [|a l IH]; simpl; intros H; [reflexivity|].
  rewrite IH by (intros b I; apply H; right; exact I).
  destruct l as [|b l]; [reflexivity|]. simpl.
  rewrite (H a (or_introl eq_refl)), (H b (or_intror (or_introl eq_refl))).
  rewrite Nat.leb_refl. reflexivity.
Qed.

(** X15.  When every neighbour of the slot is assigned (or it has none),
    [order_domain_values] rules nothing out and, its sort being stable,
    returns the words in the order in which the domain iterates. *)
Theorem order_domain_values_all_assigned (D : store) (var : variable)
        (a : assignment) (dom : list word) :
  lookup var D = Some dom ->
  (forall n, In n (neighbors var) -> mem n a = true) ->
  order_domain_values D var a = Ok dom.
Proof.
  intros Hv Hn. unfold order_domain_values, domain_of. rewrite Hv. simpl.
  assert (F : filter (fun item => negb (mem item a)) (neighbors var) = []).
  { induction (neighbors var) as [|n ns IH]; simpl; [reflexivity|].
    rewrite (Hn n (or_introl eq_refl)). simpl. apply IH.
    intros m I. apply Hn. right. exact I. }
  rewrite F.
  rewrite (map_res_Ok _ (fun w => (w, 0)) dom) by reflexivity. simpl.
  rewrite (sorted_by_constant snd _ 0).
  - rewrite map_map. simpl. rewrite map_id. reflexivity.
  - intros p I. apply in_map_iff in I. destruct I as (w & <- & _). reflexivity.
Qed.

(** X16.  The recursion of [backtrack] is never deeper than the number of
    unassigned slots plus one: each call assigns a slot that had no word. *)
Theorem backtrack_depth_bounded (D : store) (fuel : nat) (a : assignment) :
  remaining D a < fuel -> snd (backtrack fuel D a) <> Raise OutOfFuel.
Proof.
  apply backtrack_fuel.
Qed.

(** X17.  Whatever [solve] returns or raises, the store it leaves has only
    words of the length of their slot, and no word that the store it was
    given did not have. *)
Theorem solve_leaves_node_consistent_store (D : store) :
  node_consistent (snd (solve D)) /\ shrinks D (snd (solve D)).
Proof.
  unfold solve, bind.
  pose proof (enforce_shrinks D) as S1.
  pose proof (enforce_node_consistent D) as NC1.
  destruct (enforce_node_consistency D) as [u D1] eqn:E1.
  assert (u = Ok tt) as -> by (inversion E1; reflexivity).
  simpl in S1, NC1.
  pose proof (ac3_loop_shrinks (ac3_fuel (all_arcs D1) D1) (all_arcs D1) D1) as S2.
  fold (ac3 None D1) in S2.
  destruct (ac3 None D1) as [[b|e] D2]; simpl in *;
    (split; [apply (node_consistent_shrinks D1 D2 S2 NC1)
            | apply (shrinks_trans _ _ _ S1 S2)]).
Qed.

(** ** The letter grid *)

Lemma length_list_set {A} (l : list A) n x :
  List.length (list_set l n x) = List.length l.
Proof.
  revert n. induction l as [|y l IH]; intros [|n]; simpl; auto.
Qed.

Lemma nth_error_list_set_same {A} (l : list A) n x :
  n < List.length l -> nth_error (list_set l n x) n = Some x.
Proof.
  revert n. induction l as [|y l IH]; intros [|n]; simpl; intros H; try lia; auto.
  apply IH. lia.
Qed.

Lemma nth_error_list_set_other {A} (l : list A) n m x :
  n <> m -> nth_error (list_set l n x) m = nth_error l m.
Proof.
  revert n m. induction l as [|y l IH]; intros [|n] [|m]; simpl; intros H;
    try reflexivity; try congruence.
  apply IH. congruence.
Qed.

Lemma shaped_nth {A} h w (m : list (list A)) i row :
  shaped h w m -> nth_error m i = Some row -> i < h /\ List.length row = w.
Proof.
  intros [L F] H. split.
  - rewrite <- L. apply nth_error_Some. congruence.
  - rewrite Forall_forall in F. apply F. eapply nth_error_In, H.
Qed.

Lemma shaped_blank h w : shaped h w (blank_grid h w).
Proof.
  unfold shaped, blank_grid. split; [apply repeat_length|].
  apply Forall_forall. intros row I. apply repeat_spec in I. subst.
  apply repeat_length.
Qed.

Lemma cell_blank h w i j : cell (blank_grid h w) i j = None.
Proof.
  unfold cell, blank_grid. destruct (nth_error (repeat (repeat None w) h) i) as [row|] eqn:E;
    [|reflexivity].
  apply nth_error_In, repeat_spec in E. subst row.
  destruct (nth_error (repeat None w) j) as [x|] eqn:E; [|reflexivity].
  apply nth_error_In, repeat_spec in E. exact E.
Qed.

Lemma set_cell_Ok h w g i j c :
  shaped h w g -> i < h -> j < w -> exists g', set_cell g i j c = Ok g'.
Proof.
  intros Sh Hi Hj. unfold set_cell.
  destruct (nth_error g i) as [row|] eqn:E.
  - destruct (shaped_nth h w g i row Sh E) as [_ L]. rewrite L.
    apply Nat.ltb_lt in Hj. rewrite Hj. eauto.
  - apply nth_error_None in E. destruct Sh as [L _]. lia.
Qed.

Lemma set_cell_inv h w g i j c r :
  shaped h w g -> set_cell g i j c = r ->
  match r with
  | Ok g' =>
      i < h /\ j < w /\ shaped h w g' /\ cell g' i j = Some c /\
      forall i' j', (i', j') <> (i, j) -> cell g' i' j' = cell g i' j'
  | Raise e => e = IndexError /\ ~ (i < h /\ j < w)
  end.
Proof.
  intros Sh E. unfold set_cell in E.
  destruct (nth_error g i) as [row|] eqn:Er.
  - destruct (shaped_nth h w g i row Sh Er) as [Hi L]. rewrite L in E.
    destruct (j <? w) eqn:Hj; subst r.
    + apply Nat.ltb_lt in Hj. split; [exact Hi|]. split; [exact Hj|].
      assert (Li : i < List.length g) by (destruct Sh; lia).
      split; [|split].
      * destruct Sh as [Lg F]. split; [rewrite length_list_set; exact Lg|].
        apply Forall_forall. intros r' I. apply In_nth_error in I. destruct I as [n Hn].
        destruct (Nat.eq_dec i n) as [<-|N].
        -- rewrite nth_error_list_set_same in Hn by exact Li. inversion Hn; subst r'.
           rewrite length_list_set. exact L.
        -- rewrite nth_error_list_set_other in Hn by exact N.
           rewrite Forall_forall in F. apply F. eapply nth_error_In, Hn.
      * unfold cell. rewrite nth_error_list_set_same by exact Li.
        rewrite nth_error_list_set_same by lia. reflexivity.
      * intros i' j' N. unfold cell. destruct (Nat.eq_dec i i') as [<-|Ni].
        -- rewrite nth_error_list_set_same by exact Li. rewrite Er.
           rewrite nth_error_list_set_other; [reflexivity|]. congruence.
        -- rewrite nth_error_list_set_other by exact Ni. reflexivity.
    + apply Nat.ltb_ge in Hj. split; [reflexivity | lia].
  - subst r. apply nth_error_None in Er. destruct Sh as [L _].
    split; [reflexivity | lia].
Qed.

Lemma cell_of_inj v k1 k2 : cell_of v k1 = cell_of v k2 -> k1 = k2.
Proof.
  unfold cell_of. destruct (var_direction v); intros H; inversion H; lia.
Qed.

Lemma letter_of_cell v w k : letter_of v w (fst (cell_of v k)) (snd (cell_of v k)) = String.get k w.
Proof.
  unfold letter_of, cell_of. destruct (var_direction v); simpl.
  - rewrite Nat.add_0_r, Nat.eqb_refl. simpl.
    replace (var_j v <=? var_j v + k) with true by (symmetry; apply Nat.leb_le; lia).
    f_equal. lia.
  - rewrite Nat.add_0_r, Nat.eqb_refl. simpl.
    replace (var_i v <=? var_i v + k) with true by (symmetry; apply Nat.leb_le; lia).
    f_equal. lia.
Qed.

Lemma letter_of_Some v w i j c :
  letter_of v w i j = Some c -> exists k, cell_of v k = (i, j) /\ String.get k w = Some c.
Proof.
  unfold letter_of, cell_of. destruct (var_direction v).
  - destruct ((i =? var_i v) && (var_j v <=? j)) eqn:E; [|discriminate].
    apply andb_true_iff in E. destruct E as [E1 E2].
    apply Nat.eqb_eq in E1. apply Nat.leb_le in E2. intros H.
    exists (j - var_j v). split; [f_equal; lia | exact H].
  - destruct ((j =? var_j v) && (var_i v <=? i)) eqn:E; [|discriminate].
    apply andb_true_iff in E. destruct E as [E1 E2].
    apply Nat.eqb_eq in E1. apply Nat.leb_le in E2. intros H.
    exists (i - var_i v). split; [f_equal; lia | exact H].
Qed.

Lemma get_Some_lt (s : string) k c : String.get k s = Some c -> k < String.length s.
Proof.
  revert k. induction s as [|a s IH]; simpl; intros k H; [destruct k; discriminate|].
  destruct k as [|k]; [lia|]. apply IH in H. lia.
Qed.

Lemma write_word_inv h wd v : forall (w : word) k g r,
  shaped h wd g -> write_word g v k w = r ->
  match r with
  | Ok g' =>
      shaped h wd g' /\
      (forall n, n < String.length w ->
                 fst (cell_of v (k + n)) < h /\ snd (cell_of v (k + n)) < wd) /\
      (forall n c, String.get n w = Some c ->
                   cell g' (fst (cell_of v (k + n))) (snd (cell_of v (k + n))) = Some c) /\
      (forall i j, (forall n, n < String.length w -> cell_of v (k + n) <> (i, j)) ->
                   cell g' i j = cell g i j)
  | Raise e =>
      e = IndexError /\
      exists n, n < String.length w /\
                ~ (fst (cell_of v (k + n)) < h /\ snd (cell_of v (k + n)) < wd)
  end.
Proof.
  induction w as [|c w IH]; intros k g r Sh E.
  - simpl in E. subst r. split; [exact Sh|]. split; [simpl; intros; lia|].
    split; [intros n c' H; destruct n; discriminate | reflexivity].
  - pose proof (set_cell_inv h wd g (fst (cell_of v k)) (snd (cell_of v k)) c _ Sh eq_refl) as HS.
    change (write_word g v k (String c w))
      with (res_bind (set_cell g (fst (cell_of v k)) (snd (cell_of v k)) c)
                     (fun g' => write_word g' v (S k) w)) in E.
    destruct (set_cell g (fst (cell_of v k)) (snd (cell_of v k)) c) as [g1|e];
      unfold res_bind in E.
    + destruct HS as (Hi & Hj & Sh1 & Hc & Ho).
      specialize (IH (S k) g1 r Sh1 E). destruct r as [g'|e].
      * destruct IH as (Sh' & Hb & Ha & Hu). split; [exact Sh'|]. split; [|split].
        -- intros [|n] Hn; [rewrite Nat.add_0_r; auto|].
           replace (k + S n) with (S k + n) by lia. apply Hb. simpl in Hn. lia.
        -- intros [|n] c' Hg; simpl in Hg.
           ++ inversion Hg; subst c'. rewrite Nat.add_0_r. rewrite Hu; [exact Hc|].
              intros n Hn Heq. rewrite <- surjective_pairing in Heq.
              apply cell_of_inj in Heq. lia.
           ++ replace (k + S n) with (S k + n) by lia. apply Ha, Hg.
        -- intros i j Hne. rewrite Hu.
           ++ apply Ho. intros Heq. apply (Hne 0); [simpl; lia|].
              rewrite Nat.add_0_r, Heq. symmetry. apply surjective_pairing.
           ++ intros n Hn. replace (S k + n) with (k + S n) by lia.
              apply Hne. simpl. lia.
      * destruct IH as (-> & n & Hn & Hout). split; [reflexivity|].
        exists (S n). split; [simpl; lia|].
        replace (k + S n) with (S k + n) by lia. exact Hout.
    + subst r. destruct HS as [-> Hout]. split; [reflexivity|].
      exists 0. split; [simpl; lia|]. rewrite Nat.add_0_r. exact Hout.
Qed.

Lemma fill_grid_inv h wd : forall (a : assignment) g r,
  shaped h wd g -> fill_grid g a = r ->
  match r with
  | Ok g' =>
      shaped h wd g' /\ fits_grid h wd a /\
      forall i j, cell g' i j = match shown_letter a i j with
                                | Some c => Some c
                                | None => cell g i j
                                end
  | Raise e => e = IndexError /\ ~ fits_grid h wd a
  end.
Proof.
  induction a as [|[v w] a IH]; intros g r Sh E; simpl in E.
  - subst r. split; [exact Sh|]. split; [intros v w k []|reflexivity].
  - pose proof (write_word_inv h wd v w 0 g _ Sh eq_refl) as HW.
    destruct (write_word g v 0 w) as [g1|e]; simpl in E.
    + destruct HW as (Sh1 & Hb & Ha & Hu).
      specialize (IH g1 r Sh1 E). destruct r as [g'|e].
      * destruct IH as (Sh' & Hf & Hc). split; [exact Sh'|]. split.
        -- intros v' w' k [Ea|I] Hk; [|apply (Hf v' w' k I Hk)].
           inversion Ea; subst v' w'. apply (Hb k Hk).
        -- intros i j. rewrite Hc. simpl.
           destruct (shown_letter a i j) as [c|]; [reflexivity|].
           destruct (letter_of v w i j) as [c|] eqn:L.
           ++ apply letter_of_Some in L. destruct L as (k & Hk & Hg).
              specialize (Ha k c Hg). change (0 + k) with k in Ha.
              rewrite Hk in Ha. exact Ha.
           ++ apply Hu. intros n Hn Heq. change (0 + n) with n in Heq.
              pose proof (letter_of_cell v w n) as LC. rewrite Heq in LC. simpl in LC.
              rewrite L in LC. destruct (get_in_range w n Hn) as [c Hc']. congruence.
      * destruct IH as [-> Hnf]. split; [reflexivity|].
        intros F. apply Hnf. intros v' w' k I Hk. apply (F v' w' k); [right; exact I | exact Hk].
    + subst r. destruct HW as (-> & n & Hn & Hout). split; [reflexivity|].
      intros F. apply Hout. apply (F v w n); [left; reflexivity | exact Hn].
Qed.

Lemma letter_grid_inv h wd (a : assignment) :
  match letter_grid h wd a with
  | Ok g => shaped h wd g /\ fits_grid h wd a /\
            forall i j, cell g i j = shown_letter a i j
  | Raise e => e = IndexError /\ ~ fits_grid h wd a
  end.
Proof.
  pose proof (fill_grid_inv h wd a (blank_grid h wd) _ (shaped_blank h wd) eq_refl) as H.
  unfold letter_grid. destruct (fill_grid (blank_grid h wd) a) as [g|e]; [|exact H].
  destruct H as (Sh & F & C). split; [exact Sh|]. split; [exact F|].
  intros i j. rewrite C, cell_blank. destruct (shown_letter a i j); reflexivity.
Qed.

(** X19.  [letter_grid] returns a grid of the height and width of the puzzle
    when every letter of the assignment has its cell inside the grid, and
    raises [IndexError] when one has not. *)
Theorem letter_grid_bounds (height width : nat) (a : assignment) :
  (fits_grid height width a ->
   exists g, letter_grid height width a = Ok g /\ shaped height width g) /\
  (~ fits_grid height width a ->
   letter_grid height width a = Raise IndexError).
Proof.
  pose proof (letter_grid_inv height width a) as H.
  destruct (letter_grid height width a) as [g|e].
  - destruct H as (Sh & F & _). split; [eauto | intros NF; contradiction].
  - destruct H as [-> NF]. split; [intros F; contradiction | reflexivity].
Qed.

(** X20.  Each cell of the grid of [letter_grid] holds the letter of the last
    entry of the assignment that has a letter on that cell, and is empty when
    no entry has one. *)
Theorem letter_grid_cells (height width : nat) (a : assignment) (g : grid) :
  letter_grid height width a = Ok g ->
  forall i j, cell g i j = shown_letter a i j.
Proof.
  intros E. pose proof (letter_grid_inv height width a) as H. rewrite E in H. tauto.
Qed.

Lemma shown_letter_covers (a : assignment) i j c :
  shown_letter a i j = Some c -> covers a i j c.
Proof.
  induction a as [|[v w] a IH]; simpl; [discriminate|].
  destruct (shown_letter a i j) as [c'|].
  - intros H. destruct (IH H) as (v' & w' & k & I & Hk & Hg).
    exists v', w', k. split; [right; exact I | auto].
  - intros H. apply letter_of_Some in H. destruct H as (k & Hk & Hg).
    exists v, w, k. split; [left; reflexivity | auto].
Qed.

Lemma covers_shown (a : assignment) i j c :
  covers a i j c -> exists c', shown_letter a i j = Some c'.
Proof.
  intros (v & w & k & I & Hk & Hg).
  induction a as [|[v' w'] a IH]; simpl; [destruct I|].
  destruct (shown_letter a i j) as [c'|]; [eauto|].
  destruct I as [E|I]; [|destruct (IH I); discriminate].
  inversion E; subst v' w'. exists c.
  pose proof (letter_of_cell v w k) as L. rewrite Hk in L. simpl in L. congruence.
Qed.

(** X21.  Reading a slot back: when no cell is given two different letters,
    the cells of every assigned slot hold the letters of its word, in
    order. *)
Theorem letter_grid_reads_back (height width : nat) (a : assignment) (g : grid)
        (v : variable) (w : word) (k : nat) (c : ascii) :
  cells_agree a ->
  letter_grid height width a = Ok g ->
  In (v, w) a -> String.get k w = Some c ->
  cell g (fst (cell_of v k)) (snd (cell_of v k)) = Some c.
Proof.
  intros Ag E I Hg.
  pose proof (letter_grid_inv height width a) as H. rewrite E in H.
  destruct H as (_ & _ & C). rewrite C.
  assert (Cv : covers a (fst (cell_of v k)) (snd (cell_of v k)) c).
  { exists v, w, k. split; [exact I|]. split; [apply surjective_pairing | exact Hg]. }
  destruct (covers_shown a _ _ c Cv) as [c' Hc']. rewrite Hc'. f_equal.
  apply (Ag (fst (cell_of v k)) (snd (cell_of v k)) c' c);
    [apply shown_letter_covers, Hc' | exact Cv].
Qed.

(** ** What [print] writes *)

Lemma at2_shaped {A} h wd (m : list (list A)) i j :
  shaped h wd m -> i < h -> j < wd -> exists x, at2 m i j = Ok x.
Proof.
  intros Sh Hi Hj. unfold at2.
  destruct (nth_error m i) as [row|] eqn:E.
  - destruct (shaped_nth h wd m i row Sh E) as [_ L].
    destruct (nth_error row j) as [x|] eqn:Ej; [eauto|].
    apply nth_error_None in Ej. lia.
  - apply nth_error_None in E. destruct Sh as [L _]. lia.
Qed.

Lemma at2_cell (g : grid) i j x : at2 g i j = Ok x -> cell g i j = x.
Proof.
  unfold at2, cell. destruct (nth_error g i) as [row|]; [|discriminate].
  destruct (nth_error row j); [|discriminate]. intros H. inversion H. reflexivity.
Qed.

Lemma print_cell_shaped h wd structure (a : assignment) letters i j :
  shaped h wd structure -> shaped h wd letters ->
  (forall i j, cell letters i j = shown_letter a i j) ->
  i < h -> j < wd ->
  print_cell structure letters i j = Ok (glyph_at structure a i j).
Proof.
  intros Ss Sl C Hi Hj. unfold print_cell, glyph_at.
  destruct (at2_shaped h wd structure i j Ss Hi Hj) as [open ->]. simpl.
  destruct open; [|reflexivity].
  destruct (at2_shaped h wd letters i j Sl Hi Hj) as [l El]. rewrite El. simpl.
  apply at2_cell in El. rewrite <- C, El. reflexivity.
Qed.

Lemma print_row_shaped h wd structure (a : assignment) letters i js :
  shaped h wd structure -> shaped h wd letters ->
  (forall i j, cell letters i j = shown_letter a i j) ->
  i < h -> (forall j, In j js -> j < wd) ->
  print_row structure letters i js = (map (glyph_at structure a i) js, Ok tt).
Proof.
  intros Ss Sl C Hi. induction js as [|j js IH]; intros Hj; simpl; [reflexivity|].
  rewrite (print_cell_shaped h wd structure a letters i j Ss Sl C Hi)
    by (apply Hj; left; reflexivity).
  rewrite IH by (intros j' I; apply Hj; right; exact I). reflexivity.
Qed.

Lemma print_rows_shaped h wd structure (a : assignment) letters rows :
  shaped h wd structure -> shaped h wd letters ->
  (forall i j, cell letters i j = shown_letter a i j) ->
  (forall i, In i rows -> i < h) ->
  print_rows structure letters wd rows =
  (flat_map (fun i => map (glyph_at structure a i) (seq 0 wd) ++ [EndLine]) rows, Ok tt).
Proof.
  intros Ss Sl C. induction rows as [|i rows IH]; intros Hi; simpl; [reflexivity|].
  rewrite (print_row_shaped h wd structure a letters i (seq 0 wd) Ss Sl C).
  - rewrite IH by (intros i' I; apply Hi; right; exact I).
    rewrite <- app_assoc. reflexivity.
  - apply Hi. left. reflexivity.
  - intros j I. apply in_seq in I. lia.
Qed.

(** X22.  On a structure of the height and width of the puzzle and an
    assignment that fits the grid, [print] writes one line per row, each of
    one glyph per column and an end of line: the block on a blocked cell
    whatever the assignment, and on an open cell the letter the assignment
    leaves there, or a space.  When a letter falls outside the grid it writes
    nothing and raises [IndexError]. *)
Theorem print_output (height width : nat) (structure : list (list bool))
        (a : assignment) :
  shaped height width structure ->
  (fits_grid height width a ->
   print height width structure a =
   (flat_map (fun i => map (glyph_at structure a i) (seq 0 width) ++ [EndLine])
             (seq 0 height),
    Ok tt)) /\
  (~ fits_grid height width a ->
   print height width structure a = ([], Raise IndexError)).
Proof.
  intros Ss. pose proof (letter_grid_inv height width a) as H. unfold print.
  destruct (letter_grid height width a) as [g|e].
  - destruct H as (Sl & F & C). split; [intros _ | intros NF; contradiction].
    apply (print_rows_shaped height width structure a g _ Ss Sl C).
    intros i I. apply in_seq in I. lia.
  - destruct H as [-> NF]. split; [intros F; contradiction | reflexivity].
Qed.

(** ** From the solver to the grid *)

Lemma geometric_spec :
  geometric_overlaps = true ->
  forall x y k1 k2,
    In x (variables cw) -> In y (variables cw) -> x <> y ->
    k1 < var_length x -> k2 < var_length y ->
    cell_of x k1 = cell_of y k2 ->
    overlaps cw x y = Some (k1, k2).
Proof.
  intros G x y k1 k2 Hx Hy N L1 L2 Heq.
  pose proof (on_distinct_slots_spec _ G x y Hx Hy N) as P.
  unfold geometric_pair in P. rewrite forallb_forall in P.
  specialize (P k1). rewrite forallb_forall in P.
  assert (I1 : In k1 (seq 0 (var_length x))) by (apply in_seq; lia).
  assert (I2 : In k2 (seq 0 (var_length y))) by (apply in_seq; lia).
  specialize (P I1 k2 I2). rewrite Heq, !Nat.eqb_refl in P. simpl in P.
  destruct (overlaps cw x y) as [[a b]|]; [|discriminate].
  apply andb_true_iff in P. destruct P as [P1 P2].
  apply Nat.eqb_eq in P1, P2. congruence.
Qed.

Lemma consistent_spec_cells_agree (a : assignment) :
  geometric_overlaps = true ->
  NoDup (keys a) -> incl (keys a) (variables cw) ->
  consistent_spec a -> cells_agree a.
Proof.
  intros G ND Inc (_ & LF & OA) i j c c'
         (v & w & k & I & Hk & Hg) (v' & w' & k' & I' & Hk' & Hg').
  pose proof (In_lookup a v w ND I) as Lv.
  pose proof (In_lookup a v' w' ND I') as Lv'.
  destruct (variable_eq_dec v v') as [<-|N].
  - assert (w' = w) by congruence. subst w'.
    assert (k' = k) by (apply (cell_of_inj v); congruence). subst k'. congruence.
  - assert (Kv : In v (keys a)) by (apply lookup_Some_keys; eauto).
    assert (Kv' : In v' (keys a)) by (apply lookup_Some_keys; eauto).
    pose proof (get_Some_lt _ _ _ Hg) as Lk. rewrite (LF v w Lv) in Lk.
    pose proof (get_Some_lt _ _ _ Hg') as Lk'. rewrite (LF v' w' Lv') in Lk'.
    assert (Ho : overlaps cw v v' = Some (k, k')).
    { apply (geometric_spec G); auto. congruence. }
    destruct (OA v v' w w' k k' N Lv Lv' Ho) as (ch & G1 & G2). congruence.
Qed.

(** X23.  On a puzzle whose overlap lookup is symmetric and follows the
    geometry of its slots, an assignment for which [consistent] returns true
    gives no cell of the grid two different letters. *)
Theorem consistent_assignment_cells_agree (a : assignment) :
  symmetric_overlaps = true ->
  geometric_overlaps = true ->
  NoDup (keys a) -> incl (keys a) (variables cw) ->
  consistent a = Ok true -> cells_agree a.
Proof.
  intros Sym G ND Inc E.
  apply (consistent_spec_cells_agree a G ND Inc).
  apply (consistent_true a Sym ND Inc), E.
Qed.

Lemma backtrack_loop_keys (D : store) (rec : assignment -> search) var values
      (a0 : assignment) :
  NoDup (keys a0) -> incl (keys a0) (keys D) -> In var (keys D) ->
  (forall value j a',
     rec (update a0 var value) = (j, Ok (Some a')) ->
     NoDup (keys a') /\ incl (keys a') (keys D)) ->
  forall a j a',
    (forall value, update a var value = update a0 var value) ->
    backtrack_loop rec var values a = (j, Ok (Some a')) ->
    NoDup (keys a') /\ incl (keys a') (keys D).
Proof.
  intros ND Inc Kv Hrec. induction values as [|value values IH]; intros a j a' Ha E;
    simpl in E; [discriminate|].
  rewrite Ha in E.
  destruct (consistent (update a0 var value)) as [[|]|e]; [| |discriminate].
  - destruct (rec (update a0 var value)) as [j1 result] eqn:ER.
    destruct result as [[a1|]|e].
    + inversion E; subst j a'. apply (Hrec value j1 a1 ER).
    + destruct (backtrack_loop rec var values (update a0 var value)) as [j2 r2] eqn:E2.
      inversion E; subst j r2.
      apply (IH _ _ _ (fun value' => update_update a0 var value value') E2).
    + discriminate.
  - destruct (backtrack_loop rec var values a) as [j2 r2] eqn:E2.
    inversion E; subst j r2. apply (IH _ _ _ Ha E2).
Qed.

Lemma backtrack_keys D fuel :
  forall a j a',
    NoDup (keys a) -> incl (keys a) (keys D) ->
    backtrack fuel D a = (j, Ok (Some a')) ->
    NoDup (keys a') /\ incl (keys a') (keys D).
Proof.
  induction fuel as [|fuel IH]; intros a j a' ND Inc E; simpl in E; [discriminate|].
  destruct (assignment_complete D a) eqn:AC.
  { inversion E; subst. auto. }
  destruct (select_incomplete D a AC) as (var & dom & Es & Hin & M & _).
  assert (Kv : In var (keys D)).
  { change var with (fst (var, dom)). apply in_map, Hin. }
  rewrite Es in E. destruct (domain_of D var) as [values|e]; [|discriminate].
  destruct (backtrack_loop (backtrack fuel D) var values a) as [j' r'] eqn:EL.
  inversion E; subst j r'.
  apply (backtrack_loop_keys D (backtrack fuel D) var values a ND Inc Kv) with (3 := EL).
  - intros value j1 a1 E1. apply (IH _ _ _) with (3 := E1).
    + apply NoDup_keys_update, ND.
    + apply incl_keys_update; assumption.
  - reflexivity.
Qed.

(** X24.  From the solver to the grid: on a puzzle whose overlaps follow the
    geometry of its slots, the letter grid of an assignment returned by
    [solve] holds, on the cells of every slot, the letters of the word the
    assignment gives that slot. *)
Theorem solved_grid_reads_back (D D' : store) (j : journal) (a : assignment)
        (height width : nat) (g : grid) :
  symmetric_overlaps = true ->
  offsets_in_range = true ->
  geometric_overlaps = true ->
  keys D = variables cw ->
  solve D = ((j, Ok (Some a)), D') ->
  letter_grid height width a = Ok g ->
  forall v, In v (variables cw) ->
    exists w, lookup v a = Some w /\
              forall k c, String.get k w = Some c ->
                          cell g (fst (cell_of v k)) (snd (cell_of v k)) = Some c.
Proof.
  intros Sym Rng G HK E EG v Vv. unfold solve, bind in E.
  pose proof (enforce_shrinks D) as S1.
  pose proof (enforce_node_consistent D) as NC1.
  destruct (enforce_node_consistency D) as [u D1] eqn:E1.
  assert (u = Ok tt) as -> by (inversion E1; reflexivity).
  simpl in S1, NC1.
  assert (HK1 : keys D1 = variables cw) by (destruct S1; congruence).
  destruct (ac3_returns D1 Sym Rng HK1 NC1) as (b & D2 & E2 & S2).
  rewrite E2 in E.
  assert (HK2 : keys D2 = variables cw) by (destruct S2; congruence).
  assert (Eb : backtrack (S (List.length D2)) D2 [] = (j, Ok (Some a)))
    by (inversion E; reflexivity).
  destruct (backtrack_keys D2 _ [] j a (NoDup_nil _) (incl_nil_l _) Eb) as [ND Inc].
  rewrite HK2 in Inc.
  destruct (backtrack_ok D2 (S (List.length D2)) Sym Rng HK2 [])
    as (j0 & r0 & E0 & S0).
  - constructor.
  - intros x [].
  - apply consistent_spec_nil.
  - unfold remaining, keys.
    pose proof (filter_length_le (fun v => negb (mem v (@nil (variable * word))))
                                 (map fst D2)) as H.
    rewrite length_map in H. lia.
  - rewrite Eb in E0. inversion E0; subst j0 r0. destruct S0 as [C CS].
    destruct (C v) as [w Hw]; [rewrite HK2; exact Vv|].
    exists w. split; [exact Hw|]. intros k c Hg.
    pose proof (letter_grid_inv height width a) as H. rewrite EG in H.
    destruct H as (_ & _ & Cg). rewrite Cg.
    pose proof (consistent_spec_cells_agree a G ND Inc CS) as Ag.
    assert (Cv : covers a (fst (cell_of v k)) (snd (cell_of v k)) c).
    { exists v, w, k. split; [apply lookup_In, Hw|].
      split; [apply surjective_pairing | exact Hg]. }
    destruct (covers_shown a _ _ c Cv) as [c' Hc']. rewrite Hc'. f_equal.
    apply (Ag (fst (cell_of v k)) (snd (cell_of v k)) c' c);
      [apply shown_letter_covers, Hc' | exact Cv].
Qed.

(** ** The checks that run agree with the predicates *)

Lemma within_b_true D (s : assignment) : within_b D s = true -> within D s.
Proof.
  unfold within_b. rewrite forallb_forall. intros H v w Hv.
  specialize (H (v, w) (lookup_In _ _ _ Hv)). simpl in H.
  destruct (lookup v D) as [d|]; [|discriminate].
  exists d. split; [reflexivity|]. apply existsb_exists in H.
  destruct H as (w' & I & E). apply String.eqb_eq in E. congruence.
Qed.

Lemma fits_grid_b_true height width (a : assignment) :
  fits_grid_b height width a = true <-> fits_grid height width a.
Proof.
  unfold fits_grid_b, fits_grid. rewrite forallb_forall. split.
  - intros H v w k I Hk. specialize (H (v, w) I). simpl in H.
    rewrite forallb_forall in H. specialize (H k). rewrite in_seq in H.
    specialize (H ltac:(lia)). apply andb_true_iff in H.
    rewrite !Nat.ltb_lt in H. exact H.
  - intros H [v w] I. simpl. apply forallb_forall. intros k Hk.
    apply in_seq in Hk. apply andb_true_iff. rewrite !Nat.ltb_lt.
    apply (H v w k I). lia.
Qed.

End Creator.

(** ** The theorems at work on the sample puzzles

    The sets of these instances iterate in the order in which they were
    filled ([in_order]). *)

Lemma in_order_perm {A} (l : list A) : Permutation (in_order l) l.
Proof. apply Permutation_refl. Qed.

Lemma solve_complete_or_none_witness :
  symmetric_overlaps cross_puzzle = true /\
  offsets_in_range cross_puzzle = true /\
  exists j r D',
    solve in_order in_order cross_puzzle (init in_order cross_puzzle)
    = ((j, Ok r), D') /\
    match r with
    | None => True
    | Some a =>
        complete (init in_order cross_puzzle) a /\ consistent_spec cross_puzzle a
    end.
Proof.
  split; [reflexivity|]. split; [reflexivity|].
  apply (solve_complete_or_none in_order in_order in_order_perm in_order_perm
           cross_puzzle (init in_order cross_puzzle)); reflexivity.
Defined.

(** C2, counterexample.  With no word of four letters [ac3] returns false,
    and the journal of [solve] shows the search entered all the same. *)
Lemma failed_ac3_still_searches :
  fst (ac3 in_order in_order short_puzzle None
         (snd (enforce_node_consistency in_order (init in_order short_puzzle))))
  = Ok false /\
  searched (fst (fst (solve in_order in_order short_puzzle
                        (init in_order short_puzzle)))).
Proof.
  split; [reflexivity|]. exists []. left. reflexivity.
Qed.

Lemma solve_after_failed_ac3_witness :
  no_repeat (variables short_puzzle) = true /\
  solve in_order in_order short_puzzle (init in_order short_puzzle)
  = (([Call []], Ok None), [(across3, []); (down4, [])]).
Proof.
  split; [reflexivity|].
  apply (solve_after_failed_ac3 in_order in_order in_order_perm short_puzzle
           (init in_order short_puzzle) [(across3, []); (down4, [])]);
    reflexivity.
Defined.

(** C3, counterexample.  On two distinct slots that share no cell [revise]
    does not return false: it raises. *)
Lemma revise_without_overlap_raises :
  across3 <> across5 /\
  overlaps apart_puzzle across3 across5 = None /\
  fst (revise in_order apart_puzzle across3 across5 (init in_order apart_puzzle))
  = Raise TypeError /\
  fst (revise in_order apart_puzzle across3 across5 (init in_order apart_puzzle))
  <> Ok false.
Proof.
  split; [discriminate|]. split; [reflexivity|]. split; [reflexivity | discriminate].
Qed.

Lemma revise_without_overlap_witness :
  overlaps apart_puzzle across3 across5 = None /\
  revise in_order apart_puzzle across3 across5 (init in_order apart_puzzle)
  = (Raise TypeError, init in_order apart_puzzle).
Proof.
  split; [reflexivity|].
  apply (revise_without_overlap in_order apart_puzzle across3 across5
           (init in_order apart_puzzle)).
  reflexivity.
Defined.

(** C4, evaluated.  The claim has [backtrack] try the words of a slot in the
    order of [order_domain_values]; the code iterates over the domain itself.
    On the crossing puzzle, after propagation, the domain of [across3]
    iterates "dog", "cat"; "cat" rules out one word of [down4] and "dog" two,
    so [order_domain_values] puts "cat" first; the search tries "dog" first
    and stops there.  On the ladder puzzle propagation removes no word, and
    the two slots of three letters want opposite orders of the same two
    words, so that whatever the order in which the sets and the dictionary
    iterate, some node of the search starts with a word other than the first
    of [order_domain_values]. *)
Lemma backtrack_ignores_value_order :
  (let D := snd (ac3 in_order in_order cross_puzzle None
                   (snd (enforce_node_consistency in_order
                           (init in_order cross_puzzle)))) in
   lookup across3 D = Some ["dog"; "cat"] /\
   select_unassigned_variable in_order cross_puzzle D [] = Ok across3 /\
   order_domain_values in_order cross_puzzle D across3 [] = Ok ["cat"; "dog"] /\
   attempts across3
     (fst (fst (solve in_order in_order cross_puzzle (init in_order cross_puzzle))))
   = ["dog"]) /\
  snd (solve in_order in_order ladder_puzzle (init in_order ladder_puzzle))
  = store_of [top3; mid3; left4] ["cat"; "dog"] ["code"; "cede"; "dice"] /\
  forallb
    (fun ks =>
       forallb
         (fun short =>
            forallb
              (fun long =>
                 let D := store_of ks short long in
                 breaks_value_order in_order ladder_puzzle D
                   (fst (backtrack in_order ladder_puzzle 4 D [])))
              (orders ["code"; "cede"; "dice"]))
         (orders ["cat"; "dog"]))
    (orders [top3; mid3; left4])
  = true.
Proof.
  split; [vm_compute; repeat split; reflexivity|].
  split; vm_compute; reflexivity.
Qed.


Lemma ac3_sound_witness :
  symmetric_overlaps cross_puzzle = true /\
  arc_consistent in_order cross_puzzle
    [(across3, ["dog"; "cat"]); (down4, ["area"; "also"; "oboe"])].
Proof.
  split; [reflexivity|].
  apply (ac3_sound in_order in_order in_order_perm in_order_perm cross_puzzle
           (snd (enforce_node_consistency in_order (init in_order cross_puzzle))));
    reflexivity.
Defined.

Lemma consistent_iff_witness :
  let a := [(across3, "cat"); (down4, "area")] in
  symmetric_overlaps cross_puzzle = true /\
  NoDup (keys a) /\
  incl (keys a) (variables cross_puzzle) /\
  (consistent in_order cross_puzzle a = Ok true <-> consistent_spec cross_puzzle a).
Proof.
  assert (ND : NoDup (keys [(across3, "cat"); (down4, "area")])).
  { apply (no_repeat_NoDup [across3; down4]). reflexivity. }
  assert (Inc : incl (keys [(across3, "cat"); (down4, "area")])
                     (variables cross_puzzle)).
  { apply incl_refl. }
  split; [reflexivity|]. split; [exact ND|]. split; [exact Inc|].
  apply (consistent_iff in_order in_order_perm cross_puzzle
           [(across3, "cat"); (down4, "area")] eq_refl ND Inc).
Defined.

Lemma monotonic_shrink_witness :
  shrinks (init in_order cross_puzzle)
          (run_all in_order in_order cross_puzzle
                   [Node; Ac3 None; Revise across3 down4; Node]
                   (init in_order cross_puzzle)).
Proof.
  apply (monotonic_shrink in_order in_order in_order_perm cross_puzzle).
Defined.


Lemma node_consistency_idempotent_witness :
  same_domains
    (snd (enforce_node_consistency in_order
            (snd (enforce_node_consistency in_order (init in_order cross_puzzle)))))
    (snd (enforce_node_consistency in_order (init in_order cross_puzzle))).
Proof.
  apply (node_consistency_idempotent in_order in_order_perm
           (init in_order cross_puzzle)).
Defined.

Lemma select_unassigned_variable_contract_witness :
  let D := init in_order cross_puzzle in
  let full := [(across3, "cat"); (down4, "area")] in
  assignment_complete D [] = false /\
  assignment_complete D full = true /\
  (exists var dom,
     select_unassigned_variable in_order cross_puzzle D [] = Ok var /\
     In (var, dom) D /\ mem var ([] : assignment) = false) /\
  select_unassigned_variable in_order cross_puzzle D full = Raise IndexError.
Proof.
  split; [reflexivity|]. split; [reflexivity|]. split.
  - destruct (proj1 (select_unassigned_variable_contract in_order cross_puzzle
                       (init in_order cross_puzzle) []) eq_refl)
      as (var & dom & E & I & M & _).
    exists var, dom. auto.
  - apply (proj2 (select_unassigned_variable_contract in_order cross_puzzle
                    (init in_order cross_puzzle)
                    [(across3, "cat"); (down4, "area")]) eq_refl).
Defined.

(** ** Further instances on the sample puzzles *)

Lemma fresh_domains_after_node_consistency_witness :
  In across3 (variables cross_puzzle) /\
  exists dom,
    lookup across3
      (snd (enforce_node_consistency in_order (init in_order cross_puzzle)))
    = Some dom /\
    forall w, In w dom <->
              In w (words cross_puzzle) /\ String.length w = var_length across3.
Proof.
  split; [left; reflexivity|].
  apply (fresh_domains_after_node_consistency in_order in_order_perm
           cross_puzzle across3).
  left. reflexivity.
Defined.

Lemma revise_removes_the_unsupported_witness :
  let D := [(across3, ["dog"; "cat"; "sun"]); (down4, ["area"; "oboe"])] in
  let D' := [(across3, ["dog"; "cat"]); (down4, ["area"; "oboe"])] in
  revise in_order cross_puzzle across3 down4 D = (Ok true, D') /\
  exists domx domx',
    lookup across3 D = Some domx /\ lookup across3 D' = Some domx' /\
    (forall w, In w domx' <->
               In w domx /\ supported cross_puzzle D across3 down4 w) /\
    (forall z, z <> across3 -> lookup z D' = lookup z D) /\
    (true = true <->
     exists w, In w domx /\ ~ supported cross_puzzle D across3 down4 w).
Proof.
  split; [reflexivity|].
  apply (revise_removes_the_unsupported in_order in_order_perm cross_puzzle
           across3 down4
           [(across3, ["dog"; "cat"; "sun"]); (down4, ["area"; "oboe"])]
           [(across3, ["dog"; "cat"]); (down4, ["area"; "oboe"])] true).
  reflexivity.
Defined.

Lemma revise_twice_witness :
  let D := [(across3, ["dog"; "cat"; "sun"]); (down4, ["area"; "oboe"])] in
  let D' := [(across3, ["dog"; "cat"]); (down4, ["area"; "oboe"])] in
  across3 <> down4 /\
  revise in_order cross_puzzle across3 down4 D = (Ok true, D') /\
  revise in_order cross_puzzle across3 down4 D' = (Ok false, D').
Proof.
  split; [discriminate|]. split; [reflexivity|].
  apply (revise_twice in_order in_order_perm cross_puzzle across3 down4
           [(across3, ["dog"; "cat"; "sun"]); (down4, ["area"; "oboe"])]
           [(across3, ["dog"; "cat"]); (down4, ["area"; "oboe"])] true);
    [discriminate | reflexivity].
Defined.

Lemma ac3_terminates_witness :
  fst (ac3 in_order in_order cross_puzzle (Some [(across3, across3)])
         (init in_order cross_puzzle))
  <> Raise OutOfFuel.
Proof.
  apply (proj2 (ac3_terminates in_order in_order in_order_perm in_order_perm
                  cross_puzzle (Some [(across3, across3)])
                  (init in_order cross_puzzle))).
Defined.

Lemma ac3_false_empty_domain_witness :
  ac3 in_order in_order short_puzzle None
    (snd (enforce_node_consistency in_order (init in_order short_puzzle)))
  = (Ok false, [(across3, []); (down4, [])]) /\
  exists x, lookup x [(across3, @nil word); (down4, [])] = Some [].
Proof.
  split; [reflexivity|].
  apply (ac3_false_empty_domain in_order in_order short_puzzle None
           (snd (enforce_node_consistency in_order (init in_order short_puzzle)))
           [(across3, []); (down4, [])]).
  reflexivity.
Defined.

Lemma ac3_true_keeps_nonempty_witness :
  let D := [(across3, ["dog"; "cat"; "sun"]); (down4, ["area"; "oboe"])] in
  let D' := [(across3, ["dog"; "cat"]); (down4, ["area"; "oboe"])] in
  ac3 in_order in_order cross_puzzle None D = (Ok true, D') /\
  exists d', lookup across3 D' = Some d' /\ d' <> [].
Proof.
  split; [reflexivity|].
  apply (ac3_true_keeps_nonempty in_order in_order in_order_perm cross_puzzle None
           [(across3, ["dog"; "cat"; "sun"]); (down4, ["area"; "oboe"])]
           [(across3, ["dog"; "cat"]); (down4, ["area"; "oboe"])]
           across3 ["dog"; "cat"; "sun"]);
    [reflexivity | reflexivity | discriminate].
Defined.

Lemma ac3_true_on_empty_domains_witness :
  let D := [(across3, @nil word); (down4, [])] in
  symmetric_overlaps cross_puzzle = true /\
  keys D = variables cross_puzzle /\
  ac3 in_order in_order cross_puzzle None D = (Ok true, D).
Proof.
  split; [reflexivity|]. split; [reflexivity|].
  apply (ac3_true_on_empty_domains in_order in_order in_order_perm in_order_perm
           cross_puzzle [(across3, []); (down4, [])]); [reflexivity | reflexivity |].
  intros x d H. simpl in H.
  destruct (variable_eq_dec x across3); [congruence|].
  destruct (variable_eq_dec x down4); [congruence | discriminate].
Defined.

Lemma ac3_keeps_solutions_witness :
  let D := [(across3, ["dog"; "cat"; "sun"]); (down4, ["area"; "oboe"])] in
  let D' := [(across3, ["dog"; "cat"]); (down4, ["area"; "oboe"])] in
  let s := [(across3, "cat"); (down4, "area")] in
  keys D = variables cross_puzzle /\
  consistent in_order cross_puzzle s = Ok true /\
  within_b D s = true /\
  ac3 in_order in_order cross_puzzle None D = (Ok true, D') /\
  within D' s /\ Ok true <> Ok false.
Proof.
  assert (ND : NoDup (keys [(across3, "cat"); (down4, "area")]))
    by (apply (no_repeat_NoDup [across3; down4]); reflexivity).
  assert (Inc : incl (keys [(across3, "cat"); (down4, "area")])
                     (variables cross_puzzle)) by apply incl_refl.
  split; [reflexivity|]. split; [reflexivity|]. split; [reflexivity|].
  split; [reflexivity|].
  apply (ac3_keeps_solutions in_order in_order in_order_perm in_order_perm
           cross_puzzle
           [(across3, ["dog"; "cat"; "sun"]); (down4, ["area"; "oboe"])]
           [(across3, ["dog"; "cat"]); (down4, ["area"; "oboe"])]
           (Ok true) [(across3, "cat"); (down4, "area")]).
  - reflexivity.
  - apply assignment_complete_true. reflexivity.
  - apply (consistent_true in_order in_order_perm cross_puzzle _ eq_refl ND Inc).
    reflexivity.
  - apply within_b_true. reflexivity.
  - reflexivity.
Defined.

Lemma solve_finds_a_solution_witness :
  let D := init in_order cross_puzzle in
  let s := [(across3, "cat"); (down4, "area")] in
  symmetric_overlaps cross_puzzle = true /\
  offsets_in_range cross_puzzle = true /\
  consistent in_order cross_puzzle s = Ok true /\
  within_b D s = true /\
  exists j a D', solve in_order in_order cross_puzzle D = ((j, Ok (Some a)), D').
Proof.
  assert (ND : NoDup (keys [(across3, "cat"); (down4, "area")]))
    by (apply (no_repeat_NoDup [across3; down4]); reflexivity).
  assert (Inc : incl (keys [(across3, "cat"); (down4, "area")])
                     (variables cross_puzzle)) by apply incl_refl.
  split; [reflexivity|]. split; [reflexivity|]. split; [reflexivity|].
  split; [reflexivity|].
  apply (solve_finds_a_solution in_order in_order in_order_perm in_order_perm
           cross_puzzle (init in_order cross_puzzle)
           [(across3, "cat"); (down4, "area")]).
  - reflexivity.
  - reflexivity.
  - reflexivity.
  - apply assignment_complete_true. reflexivity.
  - apply (consistent_true in_order in_order_perm cross_puzzle _ eq_refl ND Inc).
    reflexivity.
  - apply within_b_true. reflexivity.
Defined.

Lemma solve_without_fitting_word_witness :
  symmetric_overlaps short_puzzle = true /\
  offsets_in_range short_puzzle = true /\
  no_repeat (variables short_puzzle) = true /\
  lookup down4 (init in_order short_puzzle) = Some ["dog"; "cat"] /\
  exists D',
    solve in_order in_order short_puzzle (init in_order short_puzzle)
    = (([Call []], Ok None), D').
Proof.
  split; [reflexivity|]. split; [reflexivity|]. split; [reflexivity|].
  split; [reflexivity|].
  apply (solve_without_fitting_word in_order in_order in_order_perm in_order_perm
           short_puzzle (init in_order short_puzzle) down4 ["dog"; "cat"]);
    try reflexivity.
  intros w [<-|[<-|[]]]; discriminate.
Defined.

Lemma backtrack_extends_from_domains_witness :
  let D := [(across3, ["dog"; "cat"]); (down4, ["area"; "also"; "oboe"])] in
  let a := [(across3, "cat")] in
  let a' := [(across3, "cat"); (down4, "area")] in
  snd (backtrack in_order cross_puzzle 3 D a) = Ok (Some a') /\
  extends a a' /\
  forall v w, lookup v a' = Some w ->
              lookup v a = Some w \/ exists d, lookup v D = Some d /\ In w d.
Proof.
  split; [reflexivity|].
  apply (backtrack_extends_from_domains in_order cross_puzzle
           [(across3, ["dog"; "cat"]); (down4, ["area"; "also"; "oboe"])]
           3 [(across3, "cat")] [(across3, "cat"); (down4, "area")]
           (fst (backtrack in_order cross_puzzle 3
                   [(across3, ["dog"; "cat"]); (down4, ["area"; "also"; "oboe"])]
                   [(across3, "cat")]))).
  reflexivity.
Defined.

Lemma solve_uses_domain_words_witness :
  let D := init in_order cross_puzzle in
  let a := [(across3, "dog"); (down4, "oboe")] in
  snd (fst (solve in_order in_order cross_puzzle D)) = Ok (Some a) /\
  forall v w, lookup v a = Some w -> exists d, lookup v D = Some d /\ In w d.
Proof.
  split; [reflexivity|].
  apply (solve_uses_domain_words in_order in_order in_order_perm cross_puzzle
           (init in_order cross_puzzle)
           (snd (solve in_order in_order cross_puzzle (init in_order cross_puzzle)))
           (fst (fst (solve in_order in_order cross_puzzle
                        (init in_order cross_puzzle))))
           [(across3, "dog"); (down4, "oboe")]).
  reflexivity.
Defined.

Lemma consistent_never_raises_witness :
  let a := [(across3, "cat"); (down4, "oboe")] in
  symmetric_overlaps cross_puzzle = true /\
  offsets_in_range cross_puzzle = true /\
  exists b, consistent in_order cross_puzzle a = Ok b.
Proof.
  split; [reflexivity|]. split; [reflexivity|].
  apply (consistent_never_raises in_order in_order_perm cross_puzzle
           [(across3, "cat"); (down4, "oboe")]).
  - reflexivity.
  - reflexivity.
  - apply (no_repeat_NoDup [across3; down4]). reflexivity.
  - apply incl_refl.
Defined.

Lemma consistent_order_independent_witness :
  let a := [(across3, "cat"); (down4, "area")] in
  let a' := [(down4, "area"); (across3, "cat")] in
  Permutation a a' /\
  consistent in_order cross_puzzle a' = consistent in_order cross_puzzle a.
Proof.
  split; [apply perm_swap|].
  apply (consistent_order_independent in_order in_order_perm cross_puzzle
           [(across3, "cat"); (down4, "area")]
           [(down4, "area"); (across3, "cat")]).
  - reflexivity.
  - reflexivity.
  - apply (no_repeat_NoDup [across3; down4]). reflexivity.
  - apply incl_refl.
  - apply perm_swap.
Defined.

Lemma order_domain_values_all_assigned_witness :
  let D := [(across3, ["dog"; "cat"]); (down4, ["area"; "also"; "oboe"])] in
  let a := [(down4, "oboe")] in
  neighbors in_order cross_puzzle across3 = [down4] /\
  order_domain_values in_order cross_puzzle D across3 a = Ok ["dog"; "cat"].
Proof.
  split; [reflexivity|].
  apply (order_domain_values_all_assigned in_order cross_puzzle
           [(across3, ["dog"; "cat"]); (down4, ["area"; "also"; "oboe"])]
           across3 [(down4, "oboe")] ["dog"; "cat"]); [reflexivity|].
  intros n [<-|[]]. reflexivity.
Defined.

Lemma backtrack_depth_bounded_witness :
  let D := [(across3, ["dog"; "cat"]); (down4, ["area"; "also"; "oboe"])] in
  remaining D ([] : assignment) < 3 /\
  snd (backtrack in_order cross_puzzle 3 D []) <> Raise OutOfFuel.
Proof.
  assert (H : remaining [(across3, ["dog"; "cat"]);
                         (down4, ["area"; "also"; "oboe"])]
                        ([] : assignment) < 3)
    by (apply Nat.ltb_lt; reflexivity).
  split; [exact H|].
  apply (backtrack_depth_bounded in_order cross_puzzle
           [(across3, ["dog"; "cat"]); (down4, ["area"; "also"; "oboe"])] 3 [] H).
Defined.

Lemma solve_leaves_node_consistent_store_witness :
  node_consistent
    (snd (solve in_order in_order cross_puzzle (init in_order cross_puzzle))) /\
  shrinks (init in_order cross_puzzle)
    (snd (solve in_order in_order cross_puzzle (init in_order cross_puzzle))).
Proof.
  apply (solve_leaves_node_consistent_store in_order in_order in_order_perm
           cross_puzzle (init in_order cross_puzzle)).
Defined.

Lemma letter_grid_bounds_witness :
  let a := [(across3, "cat"); (down4, "area")] in
  fits_grid_b 4 3 a = true /\ fits_grid_b 3 3 a = false /\
  (exists g, letter_grid 4 3 a = Ok g /\ shaped 4 3 g) /\
  letter_grid 3 3 a = Raise IndexError.
Proof.
  split; [reflexivity|]. split; [reflexivity|]. split.
  - apply (proj1 (letter_grid_bounds 4 3 [(across3, "cat"); (down4, "area")])).
    apply fits_grid_b_true. reflexivity.
  - apply (proj2 (letter_grid_bounds 3 3 [(across3, "cat"); (down4, "area")])).
    intros F. apply fits_grid_b_true in F. discriminate.
Defined.

Lemma letter_grid_cells_witness :
  let a := [(across3, "cat"); (down4, "area")] in
  exists g, letter_grid 4 3 a = Ok g /\
            forall i j, cell g i j = shown_letter a i j.
Proof.
  eexists. split; [reflexivity|].
  apply (letter_grid_cells 4 3 [(across3, "cat"); (down4, "area")]).
  reflexivity.
Defined.

Lemma consistent_assignment_cells_agree_witness :
  let a := [(across3, "cat"); (down4, "area")] in
  geometric_overlaps cross_puzzle = true /\
  consistent in_order cross_puzzle a = Ok true /\
  cells_agree a.
Proof.
  assert (ND : NoDup (keys [(across3, "cat"); (down4, "area")]))
    by (apply (no_repeat_NoDup [across3; down4]); reflexivity).
  assert (Inc : incl (keys [(across3, "cat"); (down4, "area")])
                     (variables cross_puzzle)) by apply incl_refl.
  split; [reflexivity|]. split; [reflexivity|].
  apply (consistent_assignment_cells_agree in_order in_order_perm cross_puzzle
           [(across3, "cat"); (down4, "area")] eq_refl eq_refl ND Inc).
  reflexivity.
Defined.

Lemma letter_grid_reads_back_witness :
  let a := [(across3, "cat"); (down4, "area")] in
  exists g, letter_grid 4 3 a = Ok g /\
            cell g (fst (cell_of down4 3)) (snd (cell_of down4 3)) = Some "a"%char.
Proof.
  assert (ND : NoDup (keys [(across3, "cat"); (down4, "area")]))
    by (apply (no_repeat_NoDup [across3; down4]); reflexivity).
  assert (Inc : incl (keys [(across3, "cat"); (down4, "area")])
                     (variables cross_puzzle)) by apply incl_refl.
  eexists. split; [reflexivity|].
  apply (letter_grid_reads_back 4 3 [(across3, "cat"); (down4, "area")] _
           down4 "area" 3 "a"%char).
  - apply (consistent_spec_cells_agree cross_puzzle _ eq_refl ND Inc).
    apply (consistent_true in_order in_order_perm cross_puzzle _ eq_refl ND Inc).
    reflexivity.
  - reflexivity.
  - right. left. reflexivity.
  - reflexivity.
Defined.

Lemma print_output_witness :
  let a := [(across3, "cat"); (down4, "area")] in
  let structure := [[true; true; true]; [false; true; false];
                    [false; true; false]; [false; true; false]] in
  shaped 4 3 structure /\ fits_grid_b 4 3 a = true /\
  print 4 3 structure a =
  (flat_map (fun i => map (glyph_at structure a i) (seq 0 3) ++ [EndLine]) (seq 0 4),
   Ok tt).
Proof.
  assert (Sh : shaped 4 3 [[true; true; true]; [false; true; false];
                           [false; true; false]; [false; true; false]])
    by (split; [reflexivity | repeat constructor]).
  split; [exact Sh|]. split; [reflexivity|].
  apply (proj1 (print_output 4 3 _ [(across3, "cat"); (down4, "area")] Sh)).
  apply fits_grid_b_true. reflexivity.
Defined.

Lemma solved_grid_reads_back_witness :
  let D := init in_order cross_puzzle in
  let a := [(across3, "dog"); (down4, "oboe")] in
  geometric_overlaps cross_puzzle = true /\
  snd (fst (solve in_order in_order cross_puzzle D)) = Ok (Some a) /\
  exists g, letter_grid 4 3 a = Ok g /\
    forall v, In v (variables cross_puzzle) ->
      exists w, lookup v a = Some w /\
                forall k c, String.get k w = Some c ->
                            cell g (fst (cell_of v k)) (snd (cell_of v k)) = Some c.
Proof.
  split; [reflexivity|]. split; [reflexivity|].
  eexists. split; [reflexivity|].
  apply (solved_grid_reads_back in_order in_order in_order_perm in_order_perm
           cross_puzzle (init in_order cross_puzzle)
           (snd (solve in_order in_order cross_puzzle (init in_order cross_puzzle)))
           (fst (fst (solve in_order in_order cross_puzzle
                        (init in_order cross_puzzle))))
           [(across3, "dog"); (down4, "oboe")] 4 3); reflexivity.
Defined.
